(** * cpuwatch: command-line validation and the sampling loop of src/main.c

    A shallow embedding of the C program.  [int] values are [Z], with the
    32-bit two's-complement wrap-around written out where a value parsed
    from the command line can reach it; [double] values are IEEE-754
    binary64 numbers ([spec_float] at precision 53); C strings are
    [string]s (a C string holds no NUL character); the arrays of the
    validator are lists; files are a finite map from paths to contents. *)

From Stdlib Require Import ZArith String Ascii List Lia SpecFloat DecimalString DecimalN.
From stdpp Require Import base list strings gmap.

Local Open Scope string_scope.
Local Open Scope Z_scope.

(** ** Characters, [int] and [double] *)

(** The value of a [char] as an [int]. *)
Definition char_code (c : ascii) : Z := Z.of_N (N_of_ascii c).

(** Two's-complement wrap-around of a 32-bit [int]. *)
Definition wrap_int (z : Z) : Z := (z + 2147483648) mod 4294967296 - 2147483648.

(** The test [c < '0' || c > '9'] on a character [c]. *)
Definition not_digit (c : ascii) : bool :=
  (char_code c <? char_code "0") || (char_code c >? char_code "9").

Definition double : Type := spec_float.

Definition dprec : Z := 53.
Definition demax : Z := 1024.

Definition dadd : double -> double -> double := SFadd dprec demax.
Definition dsub : double -> double -> double := SFsub dprec demax.
Definition dmul : double -> double -> double := SFmul dprec demax.
Definition ddiv : double -> double -> double := SFdiv dprec demax.

(** Conversion of an [int] to [double] (exact for 32-bit values). *)
Definition d_of_int (z : Z) : double := binary_normalize dprec demax z 0 false.

(** The double nearest to [m * 2^e]; used to write constants such as 80.5. *)
Definition d_of_bin (m e : Z) : double := binary_normalize dprec demax m e false.

Definition d_finite (x : double) : bool :=
  match x with
  | S754_zero _ | S754_finite _ _ _ => true
  | _ => false
  end.

(** ** The C library's [getopt_long]

    The scanner of the GNU C library, for the features this program uses:
    short options with and without a required or optional argument, long
    options with exact and abbreviated names, [--name=value] and
    [--name value], the [--] terminator, a leading [':'] in the option
    string, and the default permutation of non-option words to the end of
    [argv].  The [flag] member of every long option is 0 here, and
    POSIXLY_CORRECT is taken to be unset. *)
Module Getopt.

Record option_ := Option_ { name : string; has_arg : Z; val : Z }.

Definition no_argument : Z := 0.
Definition required_argument : Z := 1.

Record state := State {
  argv : list string;
  optind : nat;
  optarg : option string;
  nextchar : string;          (* empty when NULL or used up *)
  first_nonopt : nat;
  last_nonopt : nat
}.

(** State before the first call: [optind] is 1. *)
Definition init (av : list string) : state := State av 1 None "" 1 1.

Definition DONE : Z := -1.

(** [s[n] == c] *)
Definition char_at (s : string) (n : nat) (c : ascii) : bool :=
  match String.get n s with
  | Some a => Ascii.eqb a c
  | None => false
  end.

(** The kinds of [argv] elements: the terminator [--], a long option
    [--text], a group of short options [-c...] with first character
    [c], and a non-option. *)
Inductive word_kind :=
  | Terminator
  | LongOption (text : string)
  | ShortOptions (c : ascii) (rest : string)
  | NonOption.

Definition classify (s : string) : word_kind :=
  match s with
  | String a (String b rest) =>
      if Ascii.eqb a "-"
      then if Ascii.eqb b "-"
           then match rest with
                | EmptyString => Terminator
                | _ => LongOption rest
                end
           else ShortOptions b rest
      else NonOption
  | _ => NonOption
  end.

(** [argv[i][0] != '-' || argv[i][1] == '\0'] *)
Definition NONOPTION_P (s : string) : bool :=
  match classify s with
  | NonOption => true
  | _ => false
  end.

(** Swap the non-options in [bottom, middle) with the options in
    [middle, top), keeping the order inside both segments. *)
Definition exchange (av : list string) (bottom middle top : nat) : list string :=
  take bottom av ++ take (top - middle) (drop middle av)
    ++ take (middle - bottom) (drop bottom av) ++ drop top av.

(** [while (optind < argc && NONOPTION_P) optind++], counted on the
    words from [optind] on. *)
Fixpoint skip_nonoptions (l : list string) : nat :=
  match l with
  | s :: l' => if NONOPTION_P s then S (skip_nonoptions l') else O
  | [] => O
  end.

(** [strchr]: the suffix of [s] that starts at the first [c]. *)
Fixpoint strchr (s : string) (c : ascii) : option string :=
  match s with
  | EmptyString => None
  | String a s' => if Ascii.eqb a c then Some s else strchr s' c
  end.

(** The name of a long option up to ['='], and the text after the
    ['='] when there is one. *)
Fixpoint split_name (s : string) : string * option string :=
  match s with
  | EmptyString => (EmptyString, None)
  | String c s' =>
      if Ascii.eqb c "="
      then (EmptyString, Some s')
      else let '(n, v) := split_name s' in (String c n, v)
  end.

(** The scan for abbreviations: the first long option that [nm] is a
    prefix of, and whether a later one with a different [has_arg] or
    [val] also matches. *)
Fixpoint abbreviation (nm : string) (longopts : list option_)
    (pfound : option option_) (ambig : bool) : option option_ * bool :=
  match longopts with
  | [] => (pfound, ambig)
  | p :: ps =>
      if String.prefix nm (name p)
      then match pfound with
           | None => abbreviation nm ps (Some p) ambig
           | Some q =>
               if negb (has_arg q =? has_arg p) || negb (val q =? val p)
               then abbreviation nm ps pfound true
               else abbreviation nm ps pfound ambig
           end
      else abbreviation nm ps pfound ambig
  end.

(** [optstring[0] == ':' ? ':' : '?'] *)
Definition missing_code (optstring : string) : Z :=
  if char_at optstring 0 ":" then char_code ":" else char_code "?".

(** [process_long_option], entered with [optind] at the word [--text]. *)
Definition process_long_option (optstring : string) (longopts : list option_)
    (av : list string) (oi fst lst : nat) (text : string) : Z * state :=
  let '(nm, value) := split_name text in
  let found :=
    match find (fun p => String.eqb (name p) nm) longopts with
    | Some p => (Some p, false)
    | None => abbreviation nm longopts None false
    end in
  match found with
  | (_, true) | (None, _) =>
      (char_code "?", State av (S oi) None "" fst lst)
  | (Some p, false) =>
      match value with
      | Some v =>
          if has_arg p =? 0
          then (char_code "?", State av (S oi) None "" fst lst)
          else (val p, State av (S oi) (Some v) "" fst lst)
      | None =>
          if has_arg p =? 1
          then match av !! S oi with
               | Some a => (val p, State av (S (S oi)) (Some a) "" fst lst)
               | None =>
                   (missing_code optstring, State av (S oi) None "" fst lst)
               end
          else (val p, State av (S oi) None "" fst lst)
      end
  end.

(** The next short option character [c] of the word at [oi]; [rest] is
    what follows it in that word.  [temp] is [strchr (optstring, c)]. *)
Definition short_option (optstring : string) (av : list string)
    (oi fst lst : nat) (c : ascii) (rest : string) : Z * state :=
  let oi1 := match rest with EmptyString => S oi | _ => oi end in
  match strchr optstring c with
  | None => (char_code "?", State av oi1 None rest fst lst)
  | Some temp =>
      if Ascii.eqb c ":" || Ascii.eqb c ";"
      then (char_code "?", State av oi1 None rest fst lst)
      else if char_at temp 1 ":"
      then if char_at temp 2 ":"
           then (* an option with an optional argument *)
             match rest with
             | EmptyString => (char_code c, State av oi1 None "" fst lst)
             | _ => (char_code c, State av (S oi1) (Some rest) "" fst lst)
             end
           else (* an option that requires an argument *)
             match rest with
             | EmptyString =>
                 match av !! oi1 with
                 | None =>
                     (missing_code optstring, State av oi1 None "" fst lst)
                 | Some a =>
                     (char_code c, State av (S oi1) (Some a) "" fst lst)
                 end
             | _ => (char_code c, State av (S oi1) (Some rest) "" fst lst)
             end
      else (char_code c, State av oi1 None rest fst lst)
  end.

(** The permutation step before a new word is looked at. *)
Definition permute (av : list string) (fst lst oi : nat) : list string * nat * nat :=
  if negb (fst =? lst)%nat && negb (lst =? oi)%nat
  then (exchange av fst lst oi, (fst + (oi - lst))%nat, oi)
  else if negb (lst =? oi)%nat then (av, oi, lst) else (av, fst, lst).

(** The step taken at the terminator [--], found at [oi - 1]. *)
Definition terminate (av : list string) (fst lst oi : nat) : list string * nat :=
  if negb (fst =? lst)%nat && negb (lst =? oi)%nat
  then (exchange av fst lst oi, (fst + (oi - lst))%nat)
  else if (fst =? lst)%nat then (av, oi) else (av, fst).

(** The end of the scan: [optind] goes back to the first non-option. *)
Definition finished (av : list string) (oi fst lst : nat) : Z * state :=
  (DONE, State av (if negb (fst =? lst)%nat then fst else oi) None "" fst lst).

(** One call of [getopt_long (argc, argv, optstring, longopts, NULL)]. *)
Definition getopt_long (optstring : string) (longopts : list option_)
    (d : state) : Z * state :=
  let av := argv d in
  let argc := length av in
  if (argc <? 1)%nat then (DONE, d) else
  match nextchar d with
  | String c rest =>
      short_option optstring av (optind d) (first_nonopt d) (last_nonopt d) c rest
  | EmptyString =>
      (* advance to the next argv element *)
      let oi := optind d in
      let lst := Nat.min (last_nonopt d) oi in
      let fst := Nat.min (first_nonopt d) oi in
      let '(av, fst, lst) := permute av fst lst oi in
      let oi := (oi + skip_nonoptions (drop oi av))%nat in
      let lst := oi in
      match av !! oi with
      | None => finished av oi fst lst
      | Some word =>
          match classify word with
          | Terminator =>
              let '(av, fst) := terminate av fst lst (S oi) in
              finished av argc fst argc
          | LongOption text =>
              process_long_option optstring longopts av oi fst lst text
          | ShortOptions c rest =>
              short_option optstring av oi fst lst c rest
          | NonOption =>
              (1, State av (S oi) (Some word) "" fst lst)
          end
      end
  end.

End Getopt.

(** ** The command-line validator: [parseCmdLine] *)

(** [struct options].  [output] is a [char *], NULL before [-o] is seen;
    [given_h] is a one-bit signed bit-field. *)
Record options := Options {
  output : option string;
  interval : double;
  ncpu : Z;
  avg : Z;
  given_h : Z
}.

(** The value a one-bit signed bit-field keeps of an [int]. *)
Definition bitfield1 (z : Z) : Z := if Z.odd z then -1 else 0.

(** The long options [getopt_long] is given, and the option string. *)
Definition getopts : list Getopt.option_ :=
  [ Getopt.Option_ "output" Getopt.required_argument (char_code "o");
    Getopt.Option_ "interval" Getopt.required_argument (char_code "i");
    Getopt.Option_ "ncpu" Getopt.required_argument (char_code "c");
    Getopt.Option_ "samples" Getopt.required_argument (char_code "n");
    Getopt.Option_ "help" Getopt.no_argument (char_code "h") ].

Definition optstring : string := ":ho:c:n:i:".

(** [%d] *)
Definition fmt_d (z : Z) : string := NilZero.string_of_int (Z.to_int z).

(** [%s] of a [char *]; the C library prints a NULL as [(null)]. *)
Definition fmt_s (s : option string) : string := default "(null)" s.

(** What the option loop records.  The counters [badintervals],
    [badncpus], [badavgs] and [nmissing] are the lengths of the arrays
    they index; the counters count returns of [getopt_long], of which
    there are fewer than the command line has characters. *)
Record collected := Collected {
  c_options : options;
  given_o : Z;
  given_i : Z;
  given_c : Z;
  given_n : Z;
  given_badinterval : list string;
  given_badncpu : list string;
  given_badavg : list string;
  nunrecognized : Z;
  unrecognized : list (option string);
  missing : list string
}.

Definition badintervals (c : collected) : Z := Z.of_nat (length (given_badinterval c)).
Definition badncpus (c : collected) : Z := Z.of_nat (length (given_badncpu c)).
Definition badavgs (c : collected) : Z := Z.of_nat (length (given_badavg c)).
Definition nmissing (c : collected) : Z := Z.of_nat (length (missing c)).

(** The state at the top of the option loop. *)
Definition collected_init (argc : nat) : collected :=
  Collected (Options None (d_of_int 1) 0 1 0) 0 0 0 0 [] [] [] 0 (replicate argc None) [].

(** [d = d * 10 + (c[0] - '0')] *)
Definition push_digit (d : double) (c : ascii) : double :=
  dadd (dmul d (d_of_int 10)) (d_of_int (char_code c - char_code "0")).

(** The first loop of [case 'i']: the digits before the dot.  Returns
    [d], where [c] stopped, and whether the value was recorded as bad. *)
Fixpoint interval_whole (c : string) (d : double) : double * string * bool :=
  match c with
  | EmptyString => (d, c, false)
  | String ch c' =>
      if not_digit ch
      then (d, c, negb (Ascii.eqb ch "."))
      else interval_whole c' (push_digit d ch)
  end.

(** The second loop of [case 'i']: the digits after the dot, counted in [v]. *)
Fixpoint interval_fraction (c : string) (d : double) (v : nat) : double * nat * bool :=
  match c with
  | EmptyString => (d, v, false)
  | String ch c' =>
      if not_digit ch
      then (d, v, true)
      else interval_fraction c' (push_digit d ch) (S v)
  end.

(** [for (; v; v--) d /= 10;] *)
Fixpoint interval_scale (v : nat) (d : double) : double :=
  match v with
  | O => d
  | S v' => interval_scale v' (ddiv d (d_of_int 10))
  end.

(** [case 'i']: the value stored in [options->interval] and whether
    [optarg] was appended to [given_badinterval]. *)
Definition parse_interval (optarg : string) : double * bool :=
  let '(d, c, bad1) := interval_whole optarg (d_of_int 0) in
  let '(d, v, bad2) :=
    match c with
    | String ch c' =>
        if Ascii.eqb ch "." then interval_fraction c' d O else (d, O, false)
    | EmptyString => (d, O, false)
    end in
  (interval_scale v d, bad1 || bad2).

(** The loop of [case 'c'] and [case 'n']: the [int] accumulated and
    whether [optarg] was recorded as bad. *)
Fixpoint parse_int (c : string) (v : Z) : Z * bool :=
  match c with
  | EmptyString => (v, false)
  | String ch c' =>
      if not_digit ch
      then (v, true)
      else parse_int c' (wrap_int (wrap_int (v * 10) + (char_code ch - char_code "0")))
  end.

Definition set_output (o : options) (s : option string) : options :=
  Options s (interval o) (ncpu o) (avg o) (given_h o).
Definition set_interval (o : options) (d : double) : options :=
  Options (output o) d (ncpu o) (avg o) (given_h o).
Definition set_ncpu (o : options) (v : Z) : options :=
  Options (output o) (interval o) v (avg o) (given_h o).
Definition set_avg (o : options) (v : Z) : options :=
  Options (output o) (interval o) (ncpu o) v (given_h o).
Definition incr_given_h (o : options) : options :=
  Options (output o) (interval o) (ncpu o) (avg o) (bitfield1 (given_h o + 1)).

(** How the option loop is left. *)
Inductive scanned :=
  | HelpGiven (o : options)            (* [case 'h']: return 0 *)
  | LoopDone (c : collected)           (* [getopt_long] returned -1 *)
  | UnknownError (o : options).        (* [default]: return -1 *)

(** One iteration of the [while] loop on the value [opt] that
    [getopt_long] returned, in the state [d] it left. *)
Definition option_case (opt : Z) (d : Getopt.state) (c : collected) : scanned + collected :=
  let o := c_options c in
  let arg := default "" (Getopt.optarg d) in
  if opt =? char_code "h" then inl (HelpGiven (incr_given_h o))
  else if opt =? char_code "o" then
    inr (Collected (set_output o (Getopt.optarg d))
           (given_o c + 1) (given_i c) (given_c c) (given_n c)
           (given_badinterval c) (given_badncpu c) (given_badavg c)
           (nunrecognized c) (unrecognized c) (missing c))
  else if opt =? char_code "i" then
    let '(v, bad) := parse_interval arg in
    inr (Collected (set_interval o v)
           (given_o c) (given_i c + 1) (given_c c) (given_n c)
           (if bad then given_badinterval c ++ [arg] else given_badinterval c)
           (given_badncpu c) (given_badavg c)
           (nunrecognized c) (unrecognized c) (missing c))
  else if opt =? char_code "c" then
    let '(v, bad) := parse_int arg 0 in
    inr (Collected (set_ncpu o v)
           (given_o c) (given_i c) (given_c c + 1) (given_n c)
           (given_badinterval c)
           (if bad then given_badncpu c ++ [arg] else given_badncpu c)
           (given_badavg c)
           (nunrecognized c) (unrecognized c) (missing c))
  else if opt =? char_code "n" then
    let '(v, bad) := parse_int arg 0 in
    inr (Collected (set_avg o v)
           (given_o c) (given_i c) (given_c c) (given_n c + 1)
           (given_badinterval c) (given_badncpu c)
           (if bad then given_badavg c ++ [arg] else given_badavg c)
           (nunrecognized c) (unrecognized c) (missing c))
  else if opt =? char_code "?" then
    let i := (Getopt.optind d - 1)%nat in
    inr (Collected o
           (given_o c) (given_i c) (given_c c) (given_n c)
           (given_badinterval c) (given_badncpu c) (given_badavg c)
           (nunrecognized c + 1)
           (<[i := Getopt.argv d !! i]> (unrecognized c)) (missing c))
  else if opt =? char_code ":" then
    let i := (Getopt.optind d - 1)%nat in
    inr (Collected o
           (given_o c) (given_i c) (given_c c) (given_n c)
           (given_badinterval c) (given_badncpu c) (given_badavg c)
           (nunrecognized c) (unrecognized c)
           (missing c ++ [fmt_s (Getopt.argv d !! i)]))
  else inl (UnknownError o).

(** The [while ((opt = getopt_long (...)) != -1)] loop.  [fuel] bounds
    the number of calls; [scan_fuel] below is always enough. *)
Fixpoint scan_loop (fuel : nat) (d : Getopt.state) (c : collected) : option scanned :=
  match fuel with
  | O => None
  | S fuel' =>
      let '(opt, d') := Getopt.getopt_long optstring getopts d in
      if opt =? Getopt.DONE then Some (LoopDone c)
      else match option_case opt d' c with
           | inl r => Some r
           | inr c' => scan_loop fuel' d' c'
           end
  end.

(** One more than the number of characters and words after [argv[0]]. *)
Definition scan_fuel (argv : list string) : nat :=
  S (list_sum (map (fun s => S (String.length s)) (drop 1 argv))).

Definition scan (argv : list string) : option scanned :=
  scan_loop (scan_fuel argv) (Getopt.init argv) (collected_init (length argv)).

(** *** The diagnostics written to [stderr] after the loop *)

Definition quoted (s : string) : string := "'" +:+ s +:+ "'".

(** The first loop over [unrecognized]: print the first entry, and
    return the entries from the index after it. *)
Fixpoint unrecognized_first (l : list (option string)) : string * list (option string) :=
  match l with
  | [] => ("", [])
  | Some s :: l' => (quoted s, l')
  | None :: l' => unrecognized_first l'
  end.

(** The second loop: an entry that is printed also steps [i] once more,
    so the entry after it is passed over. *)
Fixpoint unrecognized_rest (l : list (option string)) : string :=
  match l with
  | [] => ""
  | None :: l' => unrecognized_rest l'
  | Some s :: l' =>
      ", " +:+ quoted s +:+
      match l' with
      | [] => ""
      | _ :: l'' => unrecognized_rest l''
      end
  end.

(** The loops printing ['%s'%s] for each entry, with [last] after the
    final entry and [", "] after the others. *)
Fixpoint quoted_list (l : list string) (last : string) : string :=
  match l with
  | [] => ""
  | [s] => quoted s +:+ last
  | s :: l' => quoted s +:+ ", " +:+ quoted_list l' last
  end.

Definition msg_header (argv0 : string) : string :=
  argv0 +:+ ": Error(s) processing command line arguments." +:+ "
" +:+ "
".

Definition msg_unrecognized (c : collected) : string :=
  let '(first, rest) := unrecognized_first (unrecognized c) in
  fmt_d (nunrecognized c) +:+ " option" +:+
  (if nunrecognized c >? 1 then "s were" else " was") +:+ " not recognised: " +:+
  first +:+ unrecognized_rest rest +:+ "
".

Definition msg_missing (c : collected) : string :=
  fmt_d (nmissing c) +:+ " option" +:+
  (if nmissing c >? 1 then "s were" else " was") +:+
  " given without an argument: " +:+ quoted_list (missing c) "
".

Definition msg_times (what : string) (n : Z) : string :=
  what +:+ " was given " +:+ fmt_d n +:+ " times (1 maximum)." +:+ "
".

Definition msg_not_given (what : string) : string :=
  what +:+ " was not given." +:+ "
".

Definition msg_improperly (what : string) (bad : list string) (last : string) : string :=
  what +:+ " was given improperly " +:+ fmt_d (Z.of_nat (length bad)) +:+ " time" +:+
  (if Z.of_nat (length bad) >? 1 then "s" else "") +:+ ": " +:+ quoted_list bad last.

Definition msg_badinterval (c : collected) : string :=
  msg_improperly "--interval/-i" (given_badinterval c) "" +:+
  ". The interval must be a positive integer value." +:+ "
".

Definition msg_badncpu (c : collected) : string :=
  msg_improperly "--cpus/-c" (given_badncpu c) "
".

Definition msg_badavg (c : collected) : string :=
  msg_improperly "--samples/-n" (given_badavg c) "
".

(** The condition under which the heading line is printed. *)
Definition header_cond (c : collected) : bool :=
  negb (nunrecognized c =? 0) || negb (nmissing c =? 0) ||
  negb (badintervals c =? 0) || negb (badncpus c =? 0) ||
  (given_o c >? 1) || (given_i c >? 1) || (given_c c >? 1) || (given_n c >? 1) ||
  (given_o c =? 0) || (given_c c =? 0).

(** The error categories in the order the code tests them: the test and
    the line it prints.  Each test that holds adds one to [errors]. *)
Definition categories (c : collected) : list (bool * string) :=
  [ (negb (nunrecognized c =? 0), msg_unrecognized c);
    (negb (nmissing c =? 0), msg_missing c);
    (given_o c >? 1, msg_times "--output/-o" (given_o c));
    (given_o c =? 0, msg_not_given "--output/-o");
    (given_i c >? 1, msg_times "--interval/-i" (given_i c));
    (negb (badintervals c =? 0), msg_badinterval c);
    (given_c c >? 1, msg_times "--cpus/-c" (given_c c));
    (given_c c =? 0, msg_not_given "--cpus/-c");
    (negb (badncpus c =? 0), msg_badncpu c);
    (given_n c >? 1, msg_times "--samples/-n" (given_n c));
    (negb (badavgs c =? 0), msg_badavg c) ].

(** [errors] and the text printed by the chain of [if]s. *)
Fixpoint report (cats : list (bool * string)) (errors : Z) (err : string) : Z * string :=
  match cats with
  | [] => (errors, err)
  | (true, msg) :: cats' => report cats' (errors + 1) (err +:+ msg)
  | (false, _) :: cats' => report cats' errors err
  end.

(** What a call of [parseCmdLine] leaves: the value returned, the
    options structure and the text written to [stderr]. *)
Record parsed := Parsed {
  p_ret : Z;
  p_options : options;
  p_stderr : string
}.

Definition finish (argv0 : string) (r : scanned) : parsed :=
  match r with
  | HelpGiven o => Parsed 0 o ""
  | UnknownError o =>
      Parsed (-1) o (argv0 +:+ ": Unknown error while parsing arguments" +:+ "
")
  | LoopDone c =>
      let head := if header_cond c then msg_header argv0 else "" in
      let '(errors, err) := report (categories c) 0 head in
      Parsed (if errors =? 0 then 0 else -1) (c_options c) err
  end.

(** [parseCmdLine (argc, argv, &options)], with [argc] the length of
    [argv].  [None] would mean that the option loop was cut short by its
    fuel, which [parseCmdLine_total] excludes. *)
Definition parseCmdLine (argv : list string) : option parsed :=
  finish (fmt_s (argv !! 0%nat)) <$> scan argv.

(** ** The environment of the sampling loop *)

(** The file system, as far as the program writes it, and [stderr]. *)
Record world := World {
  files : gmap string string;
  stderr : string
}.

Definition eprint (w : world) (text : string) : world :=
  World (files w) (stderr w +:+ text).

(** What the system does at one call of [readuptime]: the two numbers
    [fscanf] stores, or a failure of [fopen] or of [fscanf], with the
    text of [strerror (errno)]. *)
Inductive read_event :=
  | ReadOk (uptime idletime : double)
  | ReadOpenFails (strerror : string)
  | ReadScanFails (strerror : string).

(** What the system does at one call of [writeutil]: the file is opened
    and the text reaches it; [fopen] fails; or [fopen] succeeds (which
    truncates the file) and the text does not reach the file, so that
    [fprintf] or [fclose] reports an error. *)
Inductive write_event :=
  | WriteOk
  | WriteOpenFails (strerror : string)
  | WriteFails.

(** What [usleep] does: returns 0; returns -1 with [errno == EINTR];
    returns -1 with another [errno]. *)
Inductive sleep_event :=
  | SleepOk
  | SleepInterrupted
  | SleepFails (strerror : string).

(** The events of one iteration of the [while (1)] loop. *)
Record tick_events := Tick {
  write_ev : write_event;
  sleep_ev : sleep_event;
  read_ev : read_event
}.

Definition usage : string :=
"
usage: cpuwatch <--output=PATH> <--cpus=NUM> [options]

Options:
 -h, --help                 Displays this usage statement.
 -o <PATH>, --output=PATH   The CPU utilisation should be written to PATH.
 -c <NUM>, --cpus=NUM       Number of CPUs on the system.
 -n <NUM>, --samples=NUM    Take a moving average of NUM samples. DEFAULT=1
 -i <NUM>, --interval=NUM   Number of seconds between samples. DEFAULT=1

Examples:
cpuwatch -o output -i1 -n5 -c4
  Writes to the file 'output' every 1 second a 5*1 second moving average
  for a 4-core system.
cpuwatch -o output -i60 -c12
  Writes to the file 'output' every 60 seconds the average CPU utilisation
  for the previous 60 seconds assuming the system has 12 cores.

".

(** ** Formatting a [double] with [%.1f] *)

Definition sign_text (s : bool) : string := if s then "-" else "".

Definition fmt_N (n : N) : string := NilZero.string_of_uint (N.to_uint n).

(** [m * 2^e * 10] rounded to the nearest integer, ties to even: the
    number of tenths the C library prints for a finite double. *)
Definition tenths (m : positive) (e : Z) : Z :=
  if 0 <=? e then Z.pos m * 2 ^ e * 10
  else
    let den := 2 ^ (- e) in
    let q := (Z.pos m * 10) / den in
    let r := (Z.pos m * 10) mod den in
    if 2 * r >? den then q + 1
    else if (2 * r =? den) && Z.odd q then q + 1
    else q.

Section Engine.

(** The text [printf] gives for a NaN, ["nan"] or ["-nan"] by its sign
    bit, which [spec_float] does not keep. *)
Variable nan_text : string.

Definition fmt_1f (x : double) : string :=
  match x with
  | S754_nan => nan_text
  | S754_infinity s => sign_text s +:+ "inf"
  | S754_zero s => sign_text s +:+ "0.0"
  | S754_finite s m e =>
      let t := Z.to_N (tenths m e) in
      sign_text s +:+ fmt_N (t / 10) +:+ "." +:+ fmt_N (t mod 10)
  end.

(** ** [readuptime] and [writeutil] *)

(** [readuptime (&uptime, &idletime)]: the value returned, the pair
    stored on success, and the world after the call. *)
Definition readuptime (argv0 : option string) (ev : read_event) (w : world)
    : Z * option (double * double) * world :=
  match ev with
  | ReadOpenFails e =>
      (-1, None,
       eprint w (fmt_s argv0 +:+ ": Could not open /proc/uptime (" +:+ e +:+ ")"))
  | ReadScanFails _ =>
      (-1, None, eprint w (fmt_s argv0 +:+ ": Error scanning /proc/uptime"))
  | ReadOk uptime idletime => (0, Some (uptime, idletime), w)
  end.

(** [writeutil (util, path)].  The results of [fprintf] and [fclose]
    are not looked at. *)
Definition writeutil (argv0 : option string) (util : double) (path : string)
    (ev : write_event) (w : world) : Z * world :=
  match ev with
  | WriteOpenFails e =>
      (-1, eprint w (fmt_s argv0 +:+ ": Could not open '" +:+ path +:+ "' (" +:+ e +:+ ")"))
  | WriteOk =>
      (0, World (<[path := fmt_1f util +:+ "%"]> (files w)) (stderr w))
  | WriteFails =>
      (0, World (<[path := ""]> (files w)) (stderr w))
  end.

(** ** [main] *)

(** The array [times] and the variable [u]. *)
Record engine := Engine {
  times : list (double * double);
  u : double
}.

Definition slot (ts : list (double * double)) (i : nat) : double * double :=
  default (S754_nan, S754_nan) (ts !! i).

(** [for (i = 1; i < new + 1; i++) times[i] = times[i-1]], as [n]
    iterations from [i]. *)
Fixpoint pad (n i : nat) (ts : list (double * double)) : list (double * double) :=
  match n with
  | O => ts
  | S n' => pad n' (S i) (<[i := slot ts (i - 1)]> ts)
  end.

(** [for (i = 0; i < new; i++) times[i] = times[i+1]], as [n]
    iterations from [i]. *)
Fixpoint shift (n i : nat) (ts : list (double * double)) : list (double * double) :=
  match n with
  | O => ts
  | S n' => shift n' (S i) (<[i := slot ts (S i)]> ts)
  end.

Definition hundred : double := d_of_int 100.

(** [100 - 100 * ((idle / ncpu) / up)] *)
Definition utilisation (ncpu : Z) (idle up : double) : double :=
  dsub hundred (dmul hundred (ddiv (ddiv idle (d_of_int ncpu)) up)).

Definition uptimediff (new : nat) (ts : list (double * double)) : double :=
  dsub (fst (slot ts new)) (fst (slot ts 0)).

Definition idletimediff (new : nat) (ts : list (double * double)) : double :=
  dsub (snd (slot ts new)) (snd (slot ts 0)).

(** How one iteration of the loop, or the whole run, ends. *)
Inductive outcome :=
  | Exited (code : Z) (w : world)      (* [main] returned [code] *)
  | Looping (e : engine) (w : world)   (* at the top of [while (1)] *)
  | Undefined.                         (* no defined behaviour *)

(** One iteration of [while (1)]. *)
Definition iteration (argv0 : option string) (path : string) (ncpu : Z) (new : nat)
    (ev : tick_events) (e : engine) (w : world) : outcome :=
  let '(r, w) := writeutil argv0 (u e) path (write_ev ev) w in
  if r <? 0 then Exited (-1) w else
  match sleep_ev ev with
  | SleepFails err =>
      Exited (-1) (eprint w (fmt_s argv0 +:+ ": Error in usleep (" +:+ err +:+ ")" +:+ "
"))
  | _ =>
      let ts := shift new 0 (times e) in
      match readuptime argv0 (read_ev ev) w with
      | (r, Some reading, w) =>
          if r <? 0 then Exited (-1) w else
          let ts := <[new := reading]> ts in
          Looping (Engine ts (utilisation ncpu (idletimediff new ts) (uptimediff new ts))) w
      | (_, None, w) => Exited (-1) w
      end
  end.

(** The loop, run on the events of its first iterations.  [Looping]
    is the state in which the next iteration would start. *)
Fixpoint loop (argv0 : option string) (path : string) (ncpu : Z) (new : nat)
    (evs : list tick_events) (e : engine) (w : world) : outcome :=
  match evs with
  | [] => Looping e w
  | ev :: evs' =>
      match iteration argv0 path ncpu new ev e w with
      | Looping e' w' => loop argv0 path ncpu new evs' e' w'
      | r => r
      end
  end.

(** The state in which the loop is entered, from the first reading. *)
Definition start (ncpu : Z) (new : nat) (reading : double * double) : engine :=
  let ts := <[0%nat := reading]> (replicate (S new) (S754_nan, S754_nan)) in
  let u := utilisation ncpu (snd (slot ts 0)) (fst (slot ts 0)) in
  Engine (pad new 1 ts) u.

(** [main (argc, argv)], given the first reading of /proc/uptime and
    the events of the first iterations of the loop. *)
Definition main (argv : list string) (first : read_event) (evs : list tick_events)
    (w : world) : outcome :=
  match parseCmdLine argv with
  | None => Undefined
  | Some p =>
      let w := eprint w (p_stderr p) in
      let options := p_options p in
      if (p_ret p <? 0) || negb (given_h options =? 0)
      then Exited (-1) (eprint w usage)
      else
        let argv0 := argv !! 0%nat in
        let new := avg options in
        match output options with
        | None => Undefined
        | Some path =>
            if wrap_int (new + 1) <=? 0 then Undefined else
            match readuptime argv0 first w with
            | (r, Some reading, w) =>
                if r <? 0 then Exited (-1) w else
                loop argv0 path (ncpu options) (Z.to_nat new) evs
                     (start (ncpu options) (Z.to_nat new) reading) w
            | (_, None, w) => Exited (-1) w
            end
        end
  end.

(** The status the process ends with when [main] returns [code]. *)
Definition exit_status (code : Z) : Z := Z.land code 255.

End Engine.

(** ** Notions used in the statements *)

(** The size of what [getopt_long] has still to read: the characters
    left in the current word, and the words after it. *)
Definition words_weight (l : list string) : nat :=
  list_sum (map (fun s => S (String.length s)) l).

Definition weight (d : Getopt.state) : nat :=
  match Getopt.nextchar d with
  | EmptyString => words_weight (drop (Getopt.optind d) (Getopt.argv d))
  | s => (String.length s + words_weight (drop (S (Getopt.optind d)) (Getopt.argv d)))%nat
  end.

(** The states [getopt_long] is called in. *)
Definition wf_state (d : Getopt.state) : Prop :=
  (Getopt.first_nonopt d <= Getopt.last_nonopt d)%nat /\
  (Getopt.optind d <= length (Getopt.argv d))%nat /\
  (Getopt.nextchar d <> EmptyString -> (Getopt.optind d < length (Getopt.argv d))%nat).

(** The values the successive calls of [getopt_long] return, up to the
    first -1. *)
Fixpoint getopt_codes (fuel : nat) (d : Getopt.state) : list Z :=
  match fuel with
  | O => []
  | S fuel' =>
      let '(opt, d') := Getopt.getopt_long optstring getopts d in
      if opt =? Getopt.DONE then [] else opt :: getopt_codes fuel' d'
  end.

Definition returned_codes (argv : list string) : list Z :=
  getopt_codes (scan_fuel argv) (Getopt.init argv).

(** The values [getopt_long] can return to [parseCmdLine]. *)
Definition known_codes : list Z :=
  map char_code ["h"; "o"; "i"; "c"; "n"; "?"; ":"]%char.

(** Strings of digits, possibly empty. *)
Fixpoint digits_only (s : string) : bool :=
  match s with
  | EmptyString => true
  | String c s' => negb (not_digit c) && digits_only s'
  end.

(** The pattern of the specification for [cpus] and [samples]: one or
    more digits. *)
Definition spec_digits (s : string) : Prop :=
  s <> "" /\ digits_only s = true.

(** The pattern of the specification for [interval]:
    digits ('.' digits)?, each run of digits non-empty. *)
Definition spec_decimal (s : string) : Prop :=
  spec_digits s \/
  exists a b, spec_digits a /\ spec_digits b /\ s = a +:+ "." +:+ b.

(** What the loops of [case 'i'] let through: the same pattern with
    runs of digits that may be empty. *)
Definition loose_decimal (s : string) : Prop :=
  digits_only s = true \/
  exists a b, digits_only a = true /\ digits_only b = true /\ s = a +:+ "." +:+ b.

(** The argument list is accepted with the options [o]; it is rejected
    as an invalid command line. *)
Definition accepts (argv : list string) (o : options) : Prop :=
  parseCmdLine argv = Some (Parsed 0 o "").

Definition rejects (argv : list string) : Prop :=
  exists p, parseCmdLine argv = Some p /\ p_ret p = -1 /\ given_h (p_options p) = 0.

(** The validator signals that help was asked for: it returns 0 with
    [given_h] set and has printed nothing. *)
Definition signals_help (argv : list string) : Prop :=
  exists o, parseCmdLine argv = Some (Parsed 0 o "") /\ given_h o <> 0.

(** The lines of the error categories whose test holds. *)
Definition reported (c : collected) : list string :=
  map snd (filter (fun cat => fst cat = true) (categories c)).

(** An iteration in which the system lets every call succeed (an
    interrupted sleep included) and [readuptime] stores [r]. *)
Definition tick_ok (ev : tick_events) (r : double * double) : Prop :=
  (forall e, write_ev ev <> WriteOpenFails e) /\
  (forall e, sleep_ev ev <> SleepFails e) /\
  read_ev ev = ReadOk (fst r) (snd r).

(** The readings the window spans after the ticks [rs] that follow the
    first reading [r0], for a window of [new + 1] slots. *)
Definition history (new : nat) (r0 : double * double) (rs : list (double * double))
    : list (double * double) :=
  replicate new r0 ++ r0 :: rs.

(** The windowed utilisation computed from an oldest and a newest sample. *)
Definition windowed (nc : Z) (old newest : double * double) : double :=
  utilisation nc (dsub (snd newest) (snd old)) (dsub (fst newest) (fst old)).

(** The number a string of digits denotes, read from the left onto [acc]. *)
Fixpoint decimal_value (s : string) (acc : Z) : Z :=
  match s with
  | EmptyString => acc
  | String c s' => decimal_value s' (acc * 10 + (char_code c - char_code "0"))
  end.

(** The digits of a string pushed onto [d] one after the other, as both
    loops of [case 'i'] do. *)
Fixpoint digits_value (s : string) (d : double) : double :=
  match s with
  | EmptyString => d
  | String c s' => digits_value s' (push_digit d c)
  end.

(** Every second element of a list, from the first on. *)
Fixpoint alternate (l : list string) : list string :=
  match l with
  | [] => []
  | [x] => [x]
  | x :: _ :: l' => x :: alternate l'
  end.

(** A call of the environment that the program checks and that fails. *)
Definition tick_fails (ev : tick_events) : Prop :=
  (exists s, write_ev ev = WriteOpenFails s) \/
  (exists s, sleep_ev ev = SleepFails s) \/
  (exists s, read_ev ev = ReadOpenFails s) \/
  (exists s, read_ev ev = ReadScanFails s).

(** What holds of the recorded state at every turn of the option loop. *)
Definition scan_invariant (c : collected) : Prop :=
  0 <= given_o c /\ 0 <= given_i c /\ 0 <= given_c c /\ 0 <= given_n c /\
  0 <= nunrecognized c /\
  (given_o c = 0 <-> output (c_options c) = None) /\
  (given_i c = 0 -> interval (c_options c) = d_of_int 1) /\
  (given_c c = 0 -> ncpu (c_options c) = 0) /\
  (given_n c = 0 -> avg (c_options c) = 1) /\
  given_h (c_options c) = 0.

(** The values [getopt_long] returns for the options that take a value. *)
Definition takes_value (opt : Z) : Prop :=
  opt = char_code "o" \/ opt = char_code "i" \/ opt = char_code "c" \/ opt = char_code "n".

(** * Properties *)

Lemma words_weight_cons (s : string) (l : list string) :
  words_weight (s :: l) = (S (String.length s) + words_weight l)%nat.
Proof. reflexivity. Qed.

Lemma words_weight_drop (l : list string) (k : nat) :
  (words_weight (drop k l) <= words_weight l)%nat.
Proof.
  revert l; induction k as [|k IH]; intros [|s l]; simpl; try lia.
  rewrite words_weight_cons. specialize (IH l). lia.
Qed.

Lemma words_weight_drop_le (l : list string) (n k : nat) :
  (words_weight (drop (n + k) l) <= words_weight (drop n l))%nat.
Proof. rewrite <- drop_drop. apply words_weight_drop. Qed.

Lemma words_weight_drop_S (l : list string) (n : nat) (w : string) :
  l !! n = Some w ->
  words_weight (drop n l) = (S (String.length w) + words_weight (drop (S n) l))%nat.
Proof.
  revert l; induction n as [|n IH]; intros [|s l] H; simplify_eq/=; auto.
Qed.

Lemma skip_nonoptions_le (l : list string) :
  (Getopt.skip_nonoptions l <= length l)%nat.
Proof. induction l as [|s l IH]; simpl; [lia|]. destruct (Getopt.NONOPTION_P s); simpl; lia. Qed.

Lemma skip_nonoptions_stop (l : list string) (w : string) :
  l !! Getopt.skip_nonoptions l = Some w -> Getopt.NONOPTION_P w = false.
Proof.
  induction l as [|s l IH]; simpl; [done|].
  destruct (Getopt.NONOPTION_P s) eqn:E; simpl; [auto | congruence].
Qed.

Lemma exchange_length (av : list string) (b m t : nat) :
  (b <= m)%nat -> (m <= t)%nat -> (t <= length av)%nat ->
  length (Getopt.exchange av b m t) = length av.
Proof.
  intros. unfold Getopt.exchange.
  rewrite !length_app, !length_take, !length_drop. lia.
Qed.

Lemma exchange_drop (av : list string) (b m t : nat) :
  (b <= m)%nat -> (m <= t)%nat -> (t <= length av)%nat ->
  drop t (Getopt.exchange av b m t) = drop t av.
Proof.
  intros. unfold Getopt.exchange.
  rewrite !app_assoc. apply drop_app_length'.
  rewrite !length_app, !length_take, !length_drop. lia.
Qed.

Lemma short_option_progress os av oi fst lst c rest opt d' :
  (oi < length av)%nat -> (fst <= lst)%nat ->
  Getopt.short_option os av oi fst lst c rest = (opt, d') ->
  wf_state d' /\ Getopt.argv d' = av /\
  (weight d' <= String.length rest + words_weight (drop (S oi) av))%nat.
Proof.
  intros Hoi Hfl. unfold Getopt.short_option.
  pose proof (words_weight_drop_le av (S oi) 1) as Hw.
  replace (S oi + 1)%nat with (S (S oi)) in Hw by lia.
  destruct (Getopt.strchr os c) as [temp|];
    [destruct (Ascii.eqb c ":" || Ascii.eqb c ";");
      [|destruct (Getopt.char_at temp 1 ":");
        [destruct (Getopt.char_at temp 2 ":")|]]|];
    destruct rest as [|r rest]; try destruct (av !! S oi) as [a|] eqn:Ha;
    intros [= <- <-]; unfold wf_state, weight; simpl;
    try (apply lookup_lt_Some in Ha);
    repeat split; try lia; try congruence.
Qed.

Lemma process_long_option_progress os lo av oi fst lst text opt d' :
  (oi < length av)%nat -> (fst <= lst)%nat ->
  Getopt.process_long_option os lo av oi fst lst text = (opt, d') ->
  wf_state d' /\ Getopt.argv d' = av /\
  (weight d' <= words_weight (drop (S oi) av))%nat.
Proof.
  intros Hoi Hfl. unfold Getopt.process_long_option.
  pose proof (words_weight_drop_le av (S oi) 1) as Hw.
  replace (S oi + 1)%nat with (S (S oi)) in Hw by lia.
  destruct (Getopt.split_name text) as [nm value].
  destruct (match find _ lo with Some p => _ | None => _ end) as [[p|] [|]];
    try destruct value as [v|]; try destruct (Getopt.has_arg p =? 0);
    try destruct (Getopt.has_arg p =? 1);
    try destruct (av !! S oi) as [a|] eqn:Ha;
    intros [= <- <-]; unfold wf_state, weight; simpl;
    try (apply lookup_lt_Some in Ha);
    repeat split; try lia; try congruence.
Qed.

Lemma permute_spec av fst lst oi av1 fst1 lst1 :
  (fst <= lst)%nat -> (lst <= oi)%nat -> (oi <= length av)%nat ->
  Getopt.permute av fst lst oi = (av1, fst1, lst1) ->
  length av1 = length av /\ drop oi av1 = drop oi av /\ (fst1 <= oi)%nat.
Proof.
  intros H1 H2 H3. unfold Getopt.permute.
  destruct (negb (fst =? lst)%nat && negb (lst =? oi)%nat);
    [|destruct (negb (lst =? oi)%nat)]; intros [= <- <- <-];
    rewrite ?exchange_length, ?exchange_drop by lia; repeat split; lia.
Qed.

Lemma classify_short_length w c rest :
  Getopt.classify w = Getopt.ShortOptions c rest ->
  String.length w = S (S (String.length rest)).
Proof.
  destruct w as [|a [|b r]]; simpl; try discriminate.
  destruct (Ascii.eqb a "-"); [|discriminate].
  destruct (Ascii.eqb b "-"); [destruct r; discriminate|].
  intros [= <- <-]. reflexivity.
Qed.

Lemma getopt_long_progress os lo d opt d' :
  wf_state d ->
  Getopt.getopt_long os lo d = (opt, d') ->
  opt <> Getopt.DONE ->
  wf_state d' /\ (weight d' < weight d)%nat /\
  length (Getopt.argv d') = length (Getopt.argv d).
Proof.
  destruct d as [av oi oa nc fst lst]. intros (Hfl & Hoi & Hnc). simpl in *.
  unfold Getopt.getopt_long; simpl.
  destruct (length av <? 1)%nat; [intros [= <- <-]; done|].
  destruct nc as [|c rest].
  - destruct (Getopt.permute av (Nat.min fst oi) (Nat.min lst oi) oi)
      as [[av1 fst1] lst1] eqn:Hp.
    apply permute_spec in Hp as (Hlen & Hdrop & Hf1); try lia.
    set (oi2 := (oi + Getopt.skip_nonoptions (drop oi av1))%nat).
    assert (Hoi2 : (oi <= oi2)%nat) by (unfold oi2; lia).
    assert (Hle : (words_weight (drop oi2 av1) <= words_weight (drop oi av))%nat).
    { rewrite <- Hdrop. apply words_weight_drop_le. }
    destruct (av1 !! oi2) as [word|] eqn:Hw; [|intros [= <- <-]; done].
    pose proof (lookup_lt_Some _ _ _ Hw) as Hlt.
    pose proof (words_weight_drop_S _ _ _ Hw) as Hws.
    assert (Hno : Getopt.NONOPTION_P word = false).
    { apply (skip_nonoptions_stop (drop oi av1)). rewrite lookup_drop. exact Hw. }
    unfold Getopt.NONOPTION_P in Hno.
    destruct (Getopt.classify word) as [|text|c rest|] eqn:Hc; try discriminate.
    + destruct (Getopt.terminate av1 fst1 oi2 (S oi2)). intros [= <- <-]; done.
    + intros H _. apply process_long_option_progress in H as (Hwf & Hav & Hwt); try lia.
      unfold weight at 2; simpl. rewrite Hav. split; [exact Hwf|]. split; lia.
    + intros H _. apply short_option_progress in H as (Hwf & Hav & Hwt); try lia.
      apply classify_short_length in Hc.
      unfold weight at 2; simpl. rewrite Hav. split; [exact Hwf|]. split; lia.
  - intros H _. apply short_option_progress in H as (Hwf & Hav & Hwt);
      [|apply Hnc; discriminate|lia].
    unfold weight at 2; simpl. rewrite Hav. split; [exact Hwf|]. split; lia.
Qed.

Lemma wf_state_init (argv : list string) :
  argv <> [] -> wf_state (Getopt.init argv).
Proof.
  destruct argv as [|a l]; [done|]. intros _.
  unfold wf_state; simpl. repeat split; try lia. done.
Qed.

Lemma scan_loop_enough fuel d c :
  wf_state d -> (weight d < fuel)%nat -> exists r, scan_loop fuel d c = Some r.
Proof.
  revert d c; induction fuel as [|fuel IH]; intros d c Hwf Hlt; [lia|].
  simpl. destruct (Getopt.getopt_long optstring getopts d) as [opt d'] eqn:Hg.
  destruct (opt =? Getopt.DONE) eqn:Hd; [eauto|].
  destruct (option_case opt d' c) as [r|c']; [eauto|].
  apply Z.eqb_neq in Hd.
  destruct (getopt_long_progress _ _ _ _ _ Hwf Hg Hd) as (Hwf' & Hw & _).
  apply IH; [done | lia].
Qed.

Lemma scan_loop_mono n m d c r :
  scan_loop n d c = Some r -> (n <= m)%nat -> scan_loop m d c = Some r.
Proof.
  revert m d c; induction n as [|n IH]; intros m d c H Hle; [discriminate|].
  destruct m as [|m]; [lia|]. simpl in *.
  destruct (Getopt.getopt_long optstring getopts d) as [opt d'].
  destruct (opt =? Getopt.DONE); [done|].
  destruct (option_case opt d' c); [done|]. apply IH; [done | lia].
Qed.

Lemma scan_total (argv : list string) : exists r, scan argv = Some r.
Proof.
  unfold scan. destruct argv as [|a l]; [simpl; eauto|].
  apply scan_loop_enough; [by apply wf_state_init|].
  unfold scan_fuel, weight, words_weight; simpl. lia.
Qed.

(** A run of the loop on any fuel that lets it finish is the run of [scan]. *)
Lemma scan_by_fuel (n : nat) (argv : list string) (r : scanned) :
  scan_loop n (Getopt.init argv) (collected_init (length argv)) = Some r ->
  scan argv = Some r.
Proof.
  intros H. destruct (scan_total argv) as [r' Hr']. unfold scan in *.
  destruct (Nat.le_ge_cases n (scan_fuel argv)) as [Hle|Hle].
  - eapply scan_loop_mono; eauto.
  - rewrite (scan_loop_mono _ _ _ _ _ Hr' Hle) in H. congruence.
Qed.

(** *** The values [getopt_long] returns *)

Ltac known_code := apply list_elem_of_In; vm_compute; tauto.

Lemma strchr_optstring (c : ascii) (temp : string) :
  Getopt.strchr optstring c = Some temp ->
  c ∈ [":"; "h"; "o"; "c"; "n"; "i"]%char.
Proof.
  unfold optstring; cbn [Getopt.strchr].
  repeat (match goal with
          | |- context [Ascii.eqb ?a c] =>
              destruct (Ascii.eqb_spec a c) as [<-|_]; [intros _; set_solver|]
          end).
  discriminate.
Qed.

Lemma abbreviation_elem nm lo pf amb p b :
  Getopt.abbreviation nm lo pf amb = (Some p, b) -> p ∈ lo \/ pf = Some p.
Proof.
  revert pf amb; induction lo as [|q lo IH]; simpl; intros pf amb H.
  - right; congruence.
  - destruct (String.prefix nm (Getopt.name q)).
    + destruct pf as [q'|].
      * destruct (_ || _); apply IH in H as [H|H]; auto; left; by right.
      * apply IH in H as [H|H]; [left; by right|]. left. injection H as ->. by left.
    + apply IH in H as [H|H]; auto. left; by right.
Qed.

Lemma getopts_val (p : Getopt.option_) :
  p ∈ getopts -> Getopt.val p ∈ known_codes.
Proof.
  unfold getopts. rewrite !elem_of_cons, elem_of_nil.
  intros [->|[->|[->|[->|[->|[]]]]]]; known_code.
Qed.

Lemma missing_code_optstring : Getopt.missing_code optstring = char_code ":".
Proof. reflexivity. Qed.

Lemma short_option_code av oi fst lst c rest opt d' :
  Getopt.short_option optstring av oi fst lst c rest = (opt, d') ->
  opt ∈ known_codes.
Proof.
  unfold Getopt.short_option. rewrite missing_code_optstring.
  destruct (Getopt.strchr optstring c) as [temp|] eqn:Hs.
  - apply strchr_optstring in Hs.
    assert (Hc : Ascii.eqb c ":" || Ascii.eqb c ";" = false -> char_code c ∈ known_codes).
    { rewrite !elem_of_cons, elem_of_nil in Hs.
      destruct Hs as [->|[->|[->|[->|[->|[->|[]]]]]]]; intros Hd; try discriminate Hd; known_code. }
    destruct (Ascii.eqb c ":" || Ascii.eqb c ";").
    + intros [= <- <-]. known_code.
    + specialize (Hc eq_refl).
      destruct (Getopt.char_at temp 1 ":"); [destruct (Getopt.char_at temp 2 ":")|];
        destruct rest; try destruct (av !! S oi); intros [= <- <-]; auto;
        known_code.
  - intros [= <- <-]. known_code.
Qed.

Lemma process_long_option_code av oi fst lst text opt d' :
  Getopt.process_long_option optstring getopts av oi fst lst text = (opt, d') ->
  opt ∈ known_codes.
Proof.
  unfold Getopt.process_long_option. rewrite missing_code_optstring.
  destruct (Getopt.split_name text) as [nm value].
  destruct (match find _ getopts with Some p => _ | None => _ end) as [[p|] [|]] eqn:Hf;
    try (intros [= <- <-]; known_code).
  assert (Hp : Getopt.val p ∈ known_codes).
  { apply getopts_val.
    destruct (find _ getopts) as [q|] eqn:Hq.
    - injection Hf as ->. apply find_some in Hq as [Hq _]. by apply list_elem_of_In.
    - apply abbreviation_elem in Hf as [Hf|Hf]; [done | discriminate]. }
  destruct value; [destruct (Getopt.has_arg p =? 0)|
    destruct (Getopt.has_arg p =? 1); [destruct (av !! S oi)|]];
    intros [= <- <-]; auto; known_code.
Qed.

Lemma getopt_long_code d opt d' :
  Getopt.getopt_long optstring getopts d = (opt, d') ->
  opt = Getopt.DONE \/ opt ∈ known_codes.
Proof.
  unfold Getopt.getopt_long.
  destruct (length (Getopt.argv d) <? 1)%nat; [intros [= <- <-]; by left|].
  destruct (Getopt.nextchar d) as [|c rest].
  - destruct (Getopt.permute _ _ _ _) as [[av1 fst1] lst1].
    set (oi2 := (Getopt.optind d + _)%nat).
    destruct (av1 !! oi2) as [word|] eqn:Hw; [|intros [= <- <-]; by left].
    assert (Hno : Getopt.NONOPTION_P word = false).
    { apply (skip_nonoptions_stop (drop (Getopt.optind d) av1)).
      rewrite lookup_drop. exact Hw. }
    unfold Getopt.NONOPTION_P in Hno.
    destruct (Getopt.classify word) as [|text|c rest|]; try discriminate.
    + destruct (Getopt.terminate _ _ _ _). intros [= <- <-]; by left.
    + intros H; right; eapply process_long_option_code; eauto.
    + intros H; right; eapply short_option_code; eauto.
  - intros H; right; eapply short_option_code; eauto.
Qed.

Lemma append_cons (x : ascii) (a b : string) : String x a +:+ b = String x (a +:+ b).
Proof. reflexivity. Qed.

Lemma append_nil_l (a : string) : "" +:+ a = a.
Proof. reflexivity. Qed.

Lemma append_assoc (a b c : string) : (a +:+ b) +:+ c = a +:+ (b +:+ c).
Proof. induction a as [|x a IH]; [done|]. rewrite !append_cons. by rewrite IH. Qed.

Lemma append_nil_r (a : string) : a +:+ "" = a.
Proof. induction a as [|x a IH]; [done|]. rewrite append_cons. by rewrite IH. Qed.

(** *** The option loop never leaves by [default], and keeps [given_h] *)

Lemma option_case_known opt d c :
  opt ∈ known_codes ->
  (opt = char_code "h" /\ option_case opt d c = inl (HelpGiven (incr_given_h (c_options c)))) \/
  (opt <> char_code "h" /\ exists c', option_case opt d c = inr c' /\
     given_h (c_options c') = given_h (c_options c)).
Proof.
  unfold known_codes. cbn [map]. rewrite !elem_of_cons, elem_of_nil.
  unfold option_case.
  intros [->|[->|[->|[->|[->|[->|[->|[]]]]]]]].
  - left. done.
  - right. split; [done|]. eexists; split; [reflexivity | done].
  - right. split; [done|]. change (char_code "i" =? char_code "h") with false.
    change (char_code "i" =? char_code "o") with false. rewrite Z.eqb_refl.
    cbv iota. destruct (parse_interval _). eexists; split; [reflexivity | done].
  - right. split; [done|]. change (char_code "c" =? char_code "h") with false.
    change (char_code "c" =? char_code "o") with false.
    change (char_code "c" =? char_code "i") with false. rewrite Z.eqb_refl.
    cbv iota. destruct (parse_int _ _). eexists; split; [reflexivity | done].
  - right. split; [done|]. change (char_code "n" =? char_code "h") with false.
    change (char_code "n" =? char_code "o") with false.
    change (char_code "n" =? char_code "i") with false.
    change (char_code "n" =? char_code "c") with false. rewrite Z.eqb_refl.
    cbv iota. destruct (parse_int _ _). eexists; split; [reflexivity | done].
  - right. split; [done|]. eexists; split; [reflexivity | done].
  - right. split; [done|]. eexists; split; [reflexivity | done].
Qed.

Lemma scan_loop_result fuel d c r :
  given_h (c_options c) = 0 ->
  scan_loop fuel d c = Some r ->
  (exists c', r = LoopDone c' /\ given_h (c_options c') = 0) \/
  (exists o, r = HelpGiven o /\ given_h o = -1).
Proof.
  revert d c; induction fuel as [|fuel IH]; intros d c Hh; [discriminate|].
  simpl. destruct (Getopt.getopt_long optstring getopts d) as [opt d'] eqn:Hg.
  destruct (opt =? Getopt.DONE) eqn:Hd.
  - intros [= <-]. left; eauto.
  - apply getopt_long_code in Hg as [->|Hk]; [done|].
    destruct (option_case_known opt d' c Hk) as [[_ ->]|(_ & c' & -> & Hc')].
    + intros [= <-]. right. eexists; split; [done|].
      unfold incr_given_h; simpl. by rewrite Hh.
    + apply IH. congruence.
Qed.

Lemma collected_init_given_h n : given_h (c_options (collected_init n)) = 0.
Proof. reflexivity. Qed.

Lemma scan_result (argv : list string) :
  (exists c, scan argv = Some (LoopDone c) /\ given_h (c_options c) = 0) \/
  (exists o, scan argv = Some (HelpGiven o) /\ given_h o = -1).
Proof.
  destruct (scan_total argv) as [r Hr]. rewrite Hr.
  apply scan_loop_result in Hr as [(c & -> & ?)|(o & -> & ?)]; eauto using collected_init_given_h.
Qed.

Theorem parseCmdLine_total (argv : list string) : exists p, parseCmdLine argv = Some p.
Proof.
  unfold parseCmdLine. destruct (scan_total argv) as [r ->]. simpl; eauto.
Qed.

(** *** The report *)

Lemma report_spec (cats : list (bool * string)) (errors : Z) (err : string) :
  report cats errors err =
  (errors + Z.of_nat (length (filter (fun cat => fst cat = true) cats)),
   err +:+ String.concat "" (map snd (filter (fun cat => fst cat = true) cats))).
Proof.
  revert errors err; induction cats as [|[[|] msg] cats IH]; intros errors err.
  - simpl. by rewrite Z.add_0_r, append_nil_r.
  - cbn [report]. rewrite IH. rewrite filter_cons_True by done. cbn [length map fst snd].
    f_equal; [lia|]. rewrite append_assoc. f_equal.
    destruct (map snd _); [by rewrite append_nil_r | done].
  - cbn [report]. rewrite IH. by rewrite filter_cons_False by done.
Qed.

Lemma concat_cons_empty (s : string) (l : list string) :
  String.concat "" (s :: l) = s +:+ String.concat "" l.
Proof. destruct l; simpl; [by rewrite append_nil_r | done]. Qed.

Lemma finish_LoopDone (argv0 : string) (c : collected) :
  finish argv0 (LoopDone c) =
  Parsed (if decide (reported c = []) then 0 else -1) (c_options c)
    ((if header_cond c then msg_header argv0 else "") +:+ String.concat "" (reported c)).
Proof.
  unfold finish. rewrite report_spec. unfold reported.
  destruct (filter _ (categories c)) as [|x l]; [done|].
  cbn [length map]. rewrite decide_False by done.
  replace (0 + Z.of_nat (S (length l)) =? 0) with false; [done|].
  symmetry; apply Z.eqb_neq; lia.
Qed.

Lemma reported_elem (c : collected) (msg : string) :
  msg ∈ reported c <-> (true, msg) ∈ categories c.
Proof.
  unfold reported. rewrite list_elem_of_fmap. split.
  - intros ([b m] & -> & H). apply list_elem_of_filter in H as [Hb H]. simpl in *. by subst.
  - intros H. exists (true, msg). split; [done|]. apply list_elem_of_filter. done.
Qed.

Lemma parseCmdLine_scan (argv : list string) (r : scanned) :
  scan argv = Some r ->
  parseCmdLine argv = Some (finish (fmt_s (argv !! 0%nat)) r).
Proof. unfold parseCmdLine. intros ->. reflexivity. Qed.

Lemma parseCmdLine_no_help (argv : list string) (p : parsed) :
  parseCmdLine argv = Some p -> given_h (p_options p) = 0 ->
  exists c, scan argv = Some (LoopDone c) /\ p = finish (fmt_s (argv !! 0%nat)) (LoopDone c).
Proof.
  intros H Hh.
  destruct (scan_result argv) as [(c & Hc & _)|(o & Ho & Hg)].
  - rewrite (parseCmdLine_scan _ _ Hc) in H. exists c. split; [done | congruence].
  - rewrite (parseCmdLine_scan _ _ Ho) in H.
    assert (p = finish (fmt_s (argv !! 0%nat)) (HelpGiven o)) as -> by congruence.
    cbn [finish p_options] in Hh. congruence.
Qed.

(** C6.  When help is not requested, [parseCmdLine] returns -1 exactly
    when the test of at least one error category holds, and 0 exactly
    when none does; every category whose test holds prints its line, in
    the order of the code and whatever the other categories are (the
    text on [stderr] is the heading followed by these lines).  In
    particular, with [-o] and [-c] both absent both lines "was not
    given" are printed, and a second [-o] is rejected with its own
    line, whatever the two values are. *)
Theorem validator_rejects_iff_some_category (argv : list string) (p : parsed) :
  parseCmdLine argv = Some p ->
  given_h (p_options p) = 0 ->
  exists c, scan argv = Some (LoopDone c) /\
    (p_ret p = -1 <-> exists msg, (true, msg) ∈ categories c) /\
    (p_ret p = 0 <-> forall msg, (true, msg) ∉ categories c) /\
    (forall msg, (true, msg) ∈ categories c <-> msg ∈ reported c) /\
    p_stderr p =
      (if header_cond c then msg_header (fmt_s (argv !! 0%nat)) else "")
      +:+ String.concat "" (reported c) /\
    (given_o c = 0 -> given_c c = 0 ->
       p_ret p = -1 /\
       msg_not_given "--output/-o" ∈ reported c /\
       msg_not_given "--cpus/-c" ∈ reported c) /\
    (1 < given_o c ->
       p_ret p = -1 /\ msg_times "--output/-o" (given_o c) ∈ reported c).
Proof.
  intros Hp Hh. destruct (parseCmdLine_no_help argv p Hp Hh) as (c & Hc & ->).
  exists c. split; [done|]. rewrite finish_LoopDone. cbn [p_ret p_stderr].
  assert (Hne : forall msg, (true, msg) ∈ categories c ->
                (if decide (reported c = []) then 0 else -1) = -1).
  { intros msg Hm. apply reported_elem in Hm. destruct (reported c); [by apply elem_of_nil in Hm|].
    by rewrite decide_False. }
  split; [|split; [|split; [|split; [done|split]]]].
  - split; [|intros [msg Hm]; eauto].
    destruct (reported c) as [|msg l] eqn:E; [by rewrite decide_True|]. intros _.
    exists msg. apply reported_elem. rewrite E. by left.
  - split.
    + intros H0 msg Hm. rewrite (Hne msg Hm) in H0. done.
    + intros Hall. destruct (reported c) as [|msg l] eqn:E; [by rewrite decide_True|].
      exfalso. apply (Hall msg). apply reported_elem. rewrite E. by left.
  - intros msg. symmetry. apply reported_elem.
  - intros Ho Hcc.
    assert (H1 : (true, msg_not_given "--output/-o") ∈ categories c).
    { unfold categories. rewrite Ho. do 3 apply list_elem_of_further. apply list_elem_of_here. }
    assert (H2 : (true, msg_not_given "--cpus/-c") ∈ categories c).
    { unfold categories. rewrite Hcc. do 7 apply list_elem_of_further. apply list_elem_of_here. }
    split; [eauto|]. by rewrite !reported_elem.
  - intros Ho.
    assert (H1 : (true, msg_times "--output/-o" (given_o c)) ∈ categories c).
    { unfold categories. replace (given_o c >? 1) with true by (symmetry; apply Z.gtb_lt; lia).
      do 2 apply list_elem_of_further. apply list_elem_of_here. }
    split; [eauto|]. by rewrite reported_elem.
Qed.

(** *** Running the option loop one call at a time *)

Lemma scan_loop_next n d c opt d' c' :
  Getopt.getopt_long optstring getopts d = (opt, d') ->
  opt <> Getopt.DONE ->
  option_case opt d' c = inr c' ->
  scan_loop (S n) d c = scan_loop n d' c'.
Proof.
  intros Hg Hd Hc. cbn [scan_loop]. rewrite Hg.
  apply Z.eqb_neq in Hd. rewrite Hd, Hc. reflexivity.
Qed.

Lemma scan_loop_done n d c d' :
  Getopt.getopt_long optstring getopts d = (Getopt.DONE, d') ->
  scan_loop (S n) d c = Some (LoopDone c).
Proof. intros Hg. cbn [scan_loop]. rewrite Hg. reflexivity. Qed.

Lemma scan_loop_help n d c d' :
  Getopt.getopt_long optstring getopts d = (char_code "h", d') ->
  scan_loop (S n) d c = Some (HelpGiven (incr_given_h (c_options c))).
Proof. intros Hg. cbn [scan_loop]. rewrite Hg. reflexivity. Qed.

Lemma option_case_o d c :
  option_case (char_code "o") d c =
  inr (Collected (set_output (c_options c) (Getopt.optarg d))
         (given_o c + 1) (given_i c) (given_c c) (given_n c)
         (given_badinterval c) (given_badncpu c) (given_badavg c)
         (nunrecognized c) (unrecognized c) (missing c)).
Proof. reflexivity. Qed.

Lemma option_case_i d c arg v bad :
  Getopt.optarg d = Some arg -> parse_interval arg = (v, bad) ->
  option_case (char_code "i") d c =
  inr (Collected (set_interval (c_options c) v)
         (given_o c) (given_i c + 1) (given_c c) (given_n c)
         (if bad then given_badinterval c ++ [arg] else given_badinterval c)
         (given_badncpu c) (given_badavg c)
         (nunrecognized c) (unrecognized c) (missing c)).
Proof.
  intros Ha Hp. unfold option_case. rewrite Ha. change (default "" (Some arg)) with arg.
  change (char_code "i" =? char_code "h") with false.
  change (char_code "i" =? char_code "o") with false.
  rewrite Z.eqb_refl. cbv iota. rewrite Hp. reflexivity.
Qed.

Lemma option_case_c d c arg v bad :
  Getopt.optarg d = Some arg -> parse_int arg 0 = (v, bad) ->
  option_case (char_code "c") d c =
  inr (Collected (set_ncpu (c_options c) v)
         (given_o c) (given_i c) (given_c c + 1) (given_n c)
         (given_badinterval c)
         (if bad then given_badncpu c ++ [arg] else given_badncpu c)
         (given_badavg c)
         (nunrecognized c) (unrecognized c) (missing c)).
Proof.
  intros Ha Hp. unfold option_case. rewrite Ha. change (default "" (Some arg)) with arg.
  change (char_code "c" =? char_code "h") with false.
  change (char_code "c" =? char_code "o") with false.
  change (char_code "c" =? char_code "i") with false.
  rewrite Z.eqb_refl. cbv iota. rewrite Hp. reflexivity.
Qed.

Lemma option_case_n d c arg v bad :
  Getopt.optarg d = Some arg -> parse_int arg 0 = (v, bad) ->
  option_case (char_code "n") d c =
  inr (Collected (set_avg (c_options c) v)
         (given_o c) (given_i c) (given_c c) (given_n c + 1)
         (given_badinterval c) (given_badncpu c)
         (if bad then given_badavg c ++ [arg] else given_badavg c)
         (nunrecognized c) (unrecognized c) (missing c)).
Proof.
  intros Ha Hp. unfold option_case. rewrite Ha. change (default "" (Some arg)) with arg.
  change (char_code "n" =? char_code "h") with false.
  change (char_code "n" =? char_code "o") with false.
  change (char_code "n" =? char_code "i") with false.
  change (char_code "n" =? char_code "c") with false.
  rewrite Z.eqb_refl. cbv iota. rewrite Hp. reflexivity.
Qed.

Lemma option_case_unrecognized d c :
  option_case (char_code "?") d c =
  inr (Collected (c_options c)
         (given_o c) (given_i c) (given_c c) (given_n c)
         (given_badinterval c) (given_badncpu c) (given_badavg c)
         (nunrecognized c + 1)
         (<[(Getopt.optind d - 1)%nat := Getopt.argv d !! (Getopt.optind d - 1)%nat]>
            (unrecognized c))
         (missing c)).
Proof. reflexivity. Qed.

Lemma option_case_missing d c :
  option_case (char_code ":") d c =
  inr (Collected (c_options c)
         (given_o c) (given_i c) (given_c c) (given_n c)
         (given_badinterval c) (given_badncpu c) (given_badavg c)
         (nunrecognized c) (unrecognized c)
         (missing c ++ [fmt_s (Getopt.argv d !! (Getopt.optind d - 1)%nat)])).
Proof. reflexivity. Qed.

(** One call of [getopt_long] on a state written out, by computation. *)
Ltac getopt_call := vm_compute; reflexivity.

(** The fields of the state, read back after each call. *)
Ltac scan_fields :=
  cbn [c_options given_o given_i given_c given_n given_badinterval given_badncpu
       given_badavg nunrecognized unrecognized missing
       set_output set_interval set_ncpu set_avg output interval ncpu avg given_h
       Getopt.optarg Getopt.optind Getopt.argv collected_init].

Ltac scan_o :=
  erewrite scan_loop_next; [|getopt_call|discriminate|apply option_case_o]; scan_fields.
Ltac scan_unrecognized :=
  erewrite scan_loop_next; [|getopt_call|discriminate|apply option_case_unrecognized];
  scan_fields.
Ltac scan_missing :=
  erewrite scan_loop_next; [|getopt_call|discriminate|apply option_case_missing];
  scan_fields.
Ltac scan_c H :=
  erewrite scan_loop_next;
  [|getopt_call|discriminate|apply option_case_c; [reflexivity|exact H]]; scan_fields.
Ltac scan_n H :=
  erewrite scan_loop_next;
  [|getopt_call|discriminate|apply option_case_n; [reflexivity|exact H]]; scan_fields.
Ltac scan_i H :=
  erewrite scan_loop_next;
  [|getopt_call|discriminate|apply option_case_i; [reflexivity|exact H]]; scan_fields.
Ltac scan_done := erewrite scan_loop_done; [reflexivity|getopt_call].

(** Equality of texts built with [+:+] around unknown strings. *)
Ltac text_eq :=
  cbv -[String.append];
  repeat (rewrite append_assoc || rewrite append_cons || rewrite append_nil_l);
  reflexivity.

(** *** Digits *)

Lemma parse_int_digits (s : string) (v : Z) :
  snd (parse_int s v) = negb (digits_only s).
Proof.
  revert v; induction s as [|ch s IH]; intros v; [done|].
  cbn [parse_int digits_only]. destruct (not_digit ch); [done|]. apply IH.
Qed.

Lemma parse_int_pair (s : string) (v : Z) :
  parse_int s v = (fst (parse_int s v), negb (digits_only s)).
Proof. rewrite <- (parse_int_digits s v). by destruct (parse_int s v). Qed.

(** C3, evaluated on the code.  For every NUM, the word [--cpus=NUM]
    after [-o PATH] is counted as an option that is not recognised: the
    table of long options names the option "ncpu".  No cpus value is
    recorded or flagged, [ncpu] stays 0, and the validator returns -1
    with the lines "1 option was not recognised" and "--cpus/-c was not
    given". *)
Theorem cpus_long_option_not_recognised (prog path num : string) :
  exists c,
    scan [prog; "-o"; path; "--cpus=" +:+ num] = Some (LoopDone c) /\
    nunrecognized c = 1 /\
    unrecognized c = [None; None; None; Some ("--cpus=" +:+ num)] /\
    given_c c = 0 /\ given_badncpu c = [] /\ ncpu (c_options c) = 0 /\
    parseCmdLine [prog; "-o"; path; "--cpus=" +:+ num] =
      Some (Parsed (-1) (Options (Some path) (d_of_int 1) 0 1 0)
              (prog +:+ ": Error(s) processing command line arguments.

1 option was not recognised: '--cpus=" +:+ num +:+ "'
--cpus/-c was not given.
")).
Proof.
  eexists. split.
  { apply (scan_by_fuel 3). scan_o. scan_unrecognized. scan_done. }
  repeat (split; [reflexivity|]).
  erewrite parseCmdLine_scan.
  2:{ apply (scan_by_fuel 3). scan_o. scan_unrecognized. scan_done. }
  text_eq.
Qed.

Lemma digits_only_app (a b : string) :
  digits_only (a +:+ b) = digits_only a && digits_only b.
Proof.
  induction a as [|ch a IH]; [done|]. rewrite append_cons. cbn [digits_only].
  rewrite IH. by rewrite andb_assoc.
Qed.

Lemma interval_whole_spec (s : string) (d : double) :
  exists a d' c bad,
    interval_whole s d = (d', c, bad) /\ digits_only a = true /\ s = a +:+ c /\
    match c with
    | EmptyString => bad = false
    | String ch _ => not_digit ch = true /\ bad = negb (Ascii.eqb ch ".")
    end.
Proof.
  revert d; induction s as [|ch s IH]; intros d.
  - exists "", d, "", false. done.
  - cbn [interval_whole]. destruct (not_digit ch) eqn:Hd.
    + exists "", d, (String ch s), (negb (Ascii.eqb ch ".")). done.
    + destruct (IH (push_digit d ch)) as (a & d' & c & bad & H1 & H2 & H3 & H4).
      exists (String ch a), d', c, bad. rewrite H1. split; [done|].
      split; [cbn [digits_only]; by rewrite Hd, H2|].
      split; [by rewrite append_cons, <- H3 | done].
Qed.

Lemma interval_whole_digits (a c : string) (d : double) :
  digits_only a = true ->
  match c with EmptyString => True | String ch _ => not_digit ch = true end ->
  exists d', interval_whole (a +:+ c) d =
             (d', c, match c with
                     | EmptyString => false
                     | String ch _ => negb (Ascii.eqb ch ".")
                     end).
Proof.
  revert d; induction a as [|ch a IH]; intros d Ha Hc.
  - rewrite append_nil_l. destruct c as [|ch c]; [by exists d|].
    cbn [interval_whole]. rewrite Hc. by exists d.
  - cbn [digits_only] in Ha. apply andb_true_iff in Ha as [H1 H2].
    rewrite append_cons. cbn [interval_whole].
    apply negb_true_iff in H1. rewrite H1. by apply IH.
Qed.

Lemma interval_fraction_bad (s : string) (d : double) (v : nat) :
  snd (interval_fraction s d v) = negb (digits_only s).
Proof.
  revert d v; induction s as [|ch s IH]; intros d v; [done|].
  cbn [interval_fraction digits_only]. destruct (not_digit ch); [done|]. apply IH.
Qed.

Lemma not_digit_dot : not_digit "." = true.
Proof. reflexivity. Qed.

(** The loops of [case 'i'] record the value as bad exactly when it is
    not of the form digits, or digits '.' digits, with runs of digits
    that may be empty. *)
Lemma parse_interval_bad (s : string) :
  snd (parse_interval s) = false <-> loose_decimal s.
Proof.
  unfold parse_interval, loose_decimal. split.
  - destruct (interval_whole_spec s (d_of_int 0)) as (a & d' & c & bad & -> & Ha & -> & Hc).
    destruct c as [|ch c].
    + intros _. left. by rewrite append_nil_r.
    + destruct Hc as [Hn ->]. destruct (Ascii.eqb_spec ch ".") as [->|Hne].
      * pose proof (interval_fraction_bad c d' 0) as Hf.
        destruct (interval_fraction c d' 0) as [[d2 v] bad2]. simpl in *.
        intros ->. right. exists a, c. split; [done|]. split; [|done].
        by destruct (digits_only c).
      * simpl. intros H. discriminate H.
  - intros [Hd|(a & b & Ha & Hb & ->)].
    + destruct (interval_whole_digits s "" (d_of_int 0) Hd I) as [d' H].
      rewrite append_nil_r in H. rewrite H. done.
    + destruct (interval_whole_digits a ("." +:+ b) (d_of_int 0) Ha not_digit_dot) as [d' H].
      rewrite H. rewrite append_cons, append_nil_l. rewrite Ascii.eqb_refl.
      pose proof (interval_fraction_bad b d' 0) as Hf.
      destruct (interval_fraction b d' 0) as [[d2 v] bad2]. simpl in *.
      by rewrite Hf, Hb.
Qed.

Lemma parse_interval_pair (s : string) :
  loose_decimal s -> parse_interval s = (fst (parse_interval s), false).
Proof. intros H. apply parse_interval_bad in H. destruct (parse_interval s); simpl in *; congruence. Qed.

Lemma spec_digits_loose (s : string) : spec_digits s -> digits_only s = true.
Proof. by intros [_ H]. Qed.

Lemma spec_decimal_loose (s : string) : spec_decimal s -> loose_decimal s.
Proof.
  intros [[_ H]|(a & b & [_ Ha] & [_ Hb] & ->)]; [by left|].
  right. by exists a, b.
Qed.

(** C1, counterexample.  The otherwise well-formed arguments
    [-o out -c 4 -n 0] are accepted, with [avg] set to 0: a value of 0
    is not reported as an invalid command line. *)
Lemma zero_samples_accepted :
  accepts ["cpuwatch"; "-o"; "out"; "-c"; "4"; "-n"; "0"]
          (Options (Some "out") (d_of_int 1) 4 0 0) /\
  ~ rejects ["cpuwatch"; "-o"; "out"; "-c"; "4"; "-n"; "0"].
Proof.
  assert (H : accepts ["cpuwatch"; "-o"; "out"; "-c"; "4"; "-n"; "0"]
                (Options (Some "out") (d_of_int 1) 4 0 0)) by (vm_compute; reflexivity).
  split; [exact H|]. intros (p & Hp & Hr & _). unfold accepts in H.
  rewrite H in Hp. injection Hp as <-. discriminate Hr.
Qed.

(** C1, as amended.  The numeric ranges are not checked: for every
    path and every value of [-c] and [-n] made of digits only and every
    value of [-i] made of digits with at most one dot, the arguments
    [-o PATH -c C -n N -i I] (and their long forms) are accepted with
    nothing printed, and the fields receive the values; with the value
    "0" the fields [ncpu] and [avg] are 0 and [interval] is 0.0. *)
Theorem numeric_ranges_not_checked (prog path vc vn vi : string) :
  digits_only vc = true -> digits_only vn = true -> loose_decimal vi ->
  accepts [prog; "-o"; path; "-c"; vc; "-n"; vn; "-i"; vi]
    (Options (Some path) (fst (parse_interval vi))
             (fst (parse_int vc 0)) (fst (parse_int vn 0)) 0) /\
  accepts [prog; "--output=" +:+ path; "-c"; vc; "--samples=" +:+ vn; "--interval=" +:+ vi]
    (Options (Some path) (fst (parse_interval vi))
             (fst (parse_int vc 0)) (fst (parse_int vn 0)) 0) /\
  fst (parse_int "0" 0) = 0 /\
  fst (parse_interval "0") = S754_zero false.
Proof.
  intros Hc Hn Hi.
  pose proof (parse_int_pair vc 0) as Ec. rewrite Hc in Ec.
  pose proof (parse_int_pair vn 0) as En. rewrite Hn in En.
  pose proof (parse_interval_pair vi Hi) as Ei.
  split; [|split; [|split; reflexivity]].
  - unfold accepts. erewrite parseCmdLine_scan.
    2:{ apply (scan_by_fuel 5). scan_o. scan_c Ec. scan_n En. scan_i Ei. scan_done. }
    generalize (fst (parse_interval vi)) (fst (parse_int vc 0)) (fst (parse_int vn 0)).
    intros. vm_compute. reflexivity.
  - unfold accepts. erewrite parseCmdLine_scan.
    2:{ apply (scan_by_fuel 5). scan_o. scan_c Ec. scan_n En. scan_i Ei. scan_done. }
    generalize (fst (parse_interval vi)) (fst (parse_int vc 0)) (fst (parse_int vn 0)).
    intros. vm_compute. reflexivity.
Qed.

Lemma numeric_ranges_not_checked_witness :
  accepts ["cpuwatch"; "-o"; "out"; "-c"; "0"; "-n"; "0"; "-i"; "0"]
    (Options (Some "out") (S754_zero false) 0 0 0).
Proof.
  apply (numeric_ranges_not_checked "cpuwatch" "out" "0" "0" "0");
    [reflexivity | reflexivity | left; reflexivity].
Defined.

Lemma app_singleton_ne {A} (l : list A) (x : A) : (l ++ [x])%list <> l.
Proof. intros H. apply (f_equal length) in H. rewrite length_app in H. simpl in H. lia. Qed.

Lemma bad_list_nil (bad : bool) (v : string) :
  (if bad then ([] ++ [v])%list else []) = [] <-> bad = false.
Proof. destruct bad; simpl; split; congruence. Qed.

Lemma append_length (x y : string) :
  String.length (x +:+ y) = (String.length x + String.length y)%nat.
Proof. induction x as [|c x IH]; [done|]. rewrite append_cons. simpl. by rewrite IH. Qed.

(** C2, counterexample.  The empty string is not one or more digits, yet
    [-c ""] is accepted without a malformed-cpus error; "5." does not
    match digits ('.' digits)?, yet [-i 5.] is accepted without a
    malformed-interval error. *)
Lemma empty_and_dotted_values_not_flagged :
  (~ spec_digits "" /\
   accepts ["cpuwatch"; "-o"; "out"; "-c"; ""] (Options (Some "out") (d_of_int 1) 0 1 0)) /\
  (~ spec_decimal "5." /\
   accepts ["cpuwatch"; "-o"; "out"; "-c"; "1"; "-i"; "5."]
           (Options (Some "out") (d_of_int 5) 1 1 0)).
Proof.
  split; split.
  - intros [H _]. by apply H.
  - vm_compute. reflexivity.
  - intros [[_ H]|(a & b & [Ha _] & [Hb _] & H)]; [discriminate H|].
    apply (f_equal String.length) in H. rewrite !append_length in H.
    destruct a; [done|]. destruct b; [done|]. simpl in H. lia.
  - vm_compute. reflexivity.
Qed.

(** C2, as amended.  A value given to [-i]/[--interval] is recorded as
    malformed (once, with the value itself) exactly when it is not of
    the form digits, or digits '.' digits, where either run of digits
    may be empty; a value given to [-c], [-n] or [--samples] is recorded
    as malformed exactly when it holds a character that is not a digit,
    so the empty value is not.  This holds for the argument lists with
    that single option and for every occurrence in any argument list
    (any state of the option loop).  Every value matching the patterns
    of the specification is let through. *)
Theorem value_flagged_iff_other_character (prog v : string) :
  (exists c, scan [prog; "-i"; v] = Some (LoopDone c) /\
     (given_badinterval c = [] <-> loose_decimal v) /\
     (given_badinterval c = [] \/ given_badinterval c = [v])) /\
  (exists c, scan [prog; "--interval=" +:+ v] = Some (LoopDone c) /\
     (given_badinterval c = [] <-> loose_decimal v) /\
     (given_badinterval c = [] \/ given_badinterval c = [v])) /\
  (exists c, scan [prog; "-c"; v] = Some (LoopDone c) /\
     (given_badncpu c = [] <-> digits_only v = true) /\
     (given_badncpu c = [] \/ given_badncpu c = [v])) /\
  (exists c, scan [prog; "-n"; v] = Some (LoopDone c) /\
     (given_badavg c = [] <-> digits_only v = true) /\
     (given_badavg c = [] \/ given_badavg c = [v])) /\
  (exists c, scan [prog; "--samples=" +:+ v] = Some (LoopDone c) /\
     (given_badavg c = [] <-> digits_only v = true) /\
     (given_badavg c = [] \/ given_badavg c = [v])) /\
  (forall d c, Getopt.optarg d = Some v ->
     exists ci cc cn,
       option_case (char_code "i") d c = inr ci /\
       option_case (char_code "c") d c = inr cc /\
       option_case (char_code "n") d c = inr cn /\
       (given_badinterval ci = given_badinterval c <-> loose_decimal v) /\
       (given_badinterval ci = given_badinterval c \/
        given_badinterval ci = (given_badinterval c ++ [v])%list) /\
       (given_badncpu cc = given_badncpu c <-> digits_only v = true) /\
       (given_badncpu cc = given_badncpu c \/
        given_badncpu cc = (given_badncpu c ++ [v])%list) /\
       (given_badavg cn = given_badavg c <-> digits_only v = true) /\
       (given_badavg cn = given_badavg c \/
        given_badavg cn = (given_badavg c ++ [v])%list)) /\
  (spec_decimal v -> loose_decimal v) /\
  (spec_digits v -> digits_only v = true).
Proof.
  pose proof (parse_int_pair v 0) as Ec.
  pose proof (parse_interval_bad v) as Hi.
  destruct (parse_interval v) as [iv ibad] eqn:Ei. cbn [snd] in Hi.
  assert (Hd : negb (digits_only v) = false <-> digits_only v = true)
    by (destruct (digits_only v); simpl; split; congruence).
  split; [|split; [|split; [|split; [|split; [|split; [|split]]]]]].
  - eexists. split; [apply (scan_by_fuel 2); scan_i Ei; scan_done|].
    cbn [given_badinterval]. rewrite bad_list_nil. split; [done|]. destruct ibad; auto.
  - eexists. split; [apply (scan_by_fuel 2); scan_i Ei; scan_done|].
    cbn [given_badinterval]. rewrite bad_list_nil. split; [done|]. destruct ibad; auto.
  - eexists. split; [apply (scan_by_fuel 2); scan_c Ec; scan_done|].
    cbn [given_badncpu]. rewrite bad_list_nil. split; [done|]. destruct (negb _); auto.
  - eexists. split; [apply (scan_by_fuel 2); scan_n Ec; scan_done|].
    cbn [given_badavg]. rewrite bad_list_nil. split; [done|]. destruct (negb _); auto.
  - eexists. split; [apply (scan_by_fuel 2); scan_n Ec; scan_done|].
    cbn [given_badavg]. rewrite bad_list_nil. split; [done|]. destruct (negb _); auto.
  - intros d c Hv. do 3 eexists.
    split; [by apply (option_case_i d c v iv ibad)|].
    split; [by apply (option_case_c d c v _ _ Hv Ec)|].
    split; [by apply (option_case_n d c v _ _ Hv Ec)|].
    cbn [given_badinterval given_badncpu given_badavg].
    rewrite <- Hi, <- Hd.
    destruct ibad, (negb (digits_only v)); repeat split; auto;
      try (intros H; by apply app_singleton_ne in H); try discriminate.
  - apply spec_decimal_loose.
  - apply spec_digits_loose.
Qed.

(** *** Help *)

Lemma scan_loop_help_iff fuel d c :
  (exists o, scan_loop fuel d c = Some (HelpGiven o)) <->
  char_code "h" ∈ getopt_codes fuel d.
Proof.
  revert d c; induction fuel as [|fuel IH]; intros d c.
  - simpl. split; [intros [o H]; discriminate H | intros H; by apply elem_of_nil in H].
  - cbn [scan_loop getopt_codes].
    destruct (Getopt.getopt_long optstring getopts d) as [opt d'] eqn:Hg.
    destruct (opt =? Getopt.DONE) eqn:Hd.
    + split; [intros [o H]; discriminate H | intros H; by apply elem_of_nil in H].
    + apply getopt_long_code in Hg as [->|Hk]; [done|].
      destruct (option_case_known opt d' c Hk) as [[-> ->]|(Hne & c' & -> & _)].
      * split; [intros _; by left | eauto].
      * rewrite elem_of_cons, IH. split; [auto | intros [H|H]; congruence].
Qed.

Lemma signals_help_iff (argv : list string) :
  signals_help argv <-> char_code "h" ∈ returned_codes argv.
Proof.
  assert (Hiff : (exists o, scan argv = Some (HelpGiven o)) <->
                 char_code "h" ∈ returned_codes argv) by apply scan_loop_help_iff.
  rewrite <- Hiff. unfold signals_help. destruct (scan_result argv) as [(c & Hc & Hh)|(o & Ho & Hh)].
  - rewrite (parseCmdLine_scan _ _ Hc), Hc, finish_LoopDone. split.
    + intros (o & [= _ <- _] & Hne). done.
    + intros [o [= ]].
  - rewrite (parseCmdLine_scan _ _ Ho), Ho. split; [eauto|]. intros _.
    exists o. split; [reflexivity | congruence].
Qed.

Lemma main_usage (nan_text : string) (argv : list string) (p : parsed)
    (first : read_event) (evs : list tick_events) (w : world) :
  parseCmdLine argv = Some p ->
  p_ret p < 0 \/ given_h (p_options p) <> 0 ->
  main nan_text argv first evs w = Exited (-1) (eprint (eprint w (p_stderr p)) usage).
Proof.
  intros Hp H. unfold main. rewrite Hp.
  replace ((p_ret p <? 0) || negb (given_h (p_options p) =? 0)) with true; [done|].
  symmetry. apply orb_true_iff. destruct H as [H|H].
  - left. by apply Z.ltb_lt.
  - right. apply negb_true_iff. by apply Z.eqb_neq.
Qed.

(** C7, counterexample.  The argument list [-o -h] contains [-h], but
    [getopt_long] hands "-h" over as the value of [-o]: the validator
    does not signal help, it rejects the command line because [-c] is
    missing. *)
Lemma help_taken_as_option_value :
  "-h" ∈ ["cpuwatch"; "-o"; "-h"] /\
  rejects ["cpuwatch"; "-o"; "-h"] /\
  ~ signals_help ["cpuwatch"; "-o"; "-h"] /\
  parseCmdLine ["cpuwatch"; "-o"; "-h"] =
    Some (Parsed (-1) (Options (Some "-h") (d_of_int 1) 0 1 0)
            "cpuwatch: Error(s) processing command line arguments.

--cpus/-c was not given.
").
Proof.
  assert (H : parseCmdLine ["cpuwatch"; "-o"; "-h"] =
    Some (Parsed (-1) (Options (Some "-h") (d_of_int 1) 0 1 0)
            "cpuwatch: Error(s) processing command line arguments.

--cpus/-c was not given.
")) by (vm_compute; reflexivity).
  split; [set_solver|]. split; [|split; [|exact H]].
  - eexists. split; [exact H|]. done.
  - intros (o & Ho & _). rewrite H in Ho. discriminate Ho.
Qed.

(** C7, as amended.  Whenever the scan of the arguments reaches [-h]
    or [--help] as an option, that is, some call of [getopt_long]
    returns 'h', the validator returns at once with [given_h] set and
    nothing printed, whatever else the arguments hold; [main] then
    prints the usage text and returns -1 (exit status 255), as it does
    for an invalid command line, where the diagnostics precede the
    usage text. *)
Theorem help_short_circuits (nan_text : string) (argv : list string)
    (first : read_event) (evs : list tick_events) (w : world) :
  char_code "h" ∈ returned_codes argv ->
  signals_help argv /\
  (exists o, scan argv = Some (HelpGiven o)) /\
  main nan_text argv first evs w = Exited (-1) (eprint (eprint w "") usage) /\
  exit_status (-1) = 255 /\
  (forall argv', rejects argv' ->
     exists diagnostics,
       main nan_text argv' first evs w =
       Exited (-1) (eprint (eprint w diagnostics) usage)).
Proof.
  intros Hh. pose proof Hh as Hs. apply signals_help_iff in Hs.
  split; [exact Hs|]. split; [by apply (scan_loop_help_iff _ _ (collected_init (length argv)))|].
  split; [|split; [reflexivity|]].
  - destruct Hs as (o & Ho & Hne).
    rewrite (main_usage nan_text argv _ first evs w Ho); [done | by right].
  - intros argv' (p & Hp & Hr & _). exists (p_stderr p).
    apply (main_usage nan_text argv' p first evs w Hp). left. lia.
Qed.

Lemma help_short_circuits_witness :
  signals_help ["cpuwatch"; "--bogus"; "-c"; "x"; "-c"; "y"; "--help"; "-o"].
Proof.
  apply (help_short_circuits "nan" ["cpuwatch"; "--bogus"; "-c"; "x"; "-c"; "y"; "--help"; "-o"]
           (ReadOpenFails "") [] (World ∅ "")).
  vm_compute. set_solver.
Defined.

Lemma scan_help_signals (argv : list string) (o : options) :
  scan argv = Some (HelpGiven o) -> signals_help argv.
Proof.
  intros H. exists o. rewrite (parseCmdLine_scan _ _ H). split; [reflexivity|].
  destruct (scan_result argv) as [(c & Hc & _)|(o' & Ho & Hh)]; congruence.
Qed.

(** [-h] or [--help] as the first argument: whatever follows is not looked at. *)
Lemma help_first_argument (prog : string) (rest : list string) :
  signals_help (prog :: "-h" :: rest) /\ signals_help (prog :: "--help" :: rest).
Proof.
  split; eapply scan_help_signals; apply (scan_by_fuel 1);
    (erewrite scan_loop_help; [reflexivity | getopt_call]).
Qed.

Local Open Scope list_scope.

Lemma validator_rejects_iff_some_category_witness :
  exists c, scan ["cpuwatch"] = Some (LoopDone c) /\
    msg_not_given "--output/-o" ∈ reported c /\
    msg_not_given "--cpus/-c" ∈ reported c.
Proof.
  destruct (validator_rejects_iff_some_category ["cpuwatch"]
              (Parsed (-1) (Options None (d_of_int 1) 0 1 0)
                 "cpuwatch: Error(s) processing command line arguments.

--output/-o was not given.
--cpus/-c was not given.
") eq_refl eq_refl) as (c & Hc & _ & _ & _ & _ & Hboth & _).
  exists c. split; [exact Hc|].
  assert (Hi : Some (LoopDone c) = Some (LoopDone (collected_init 1))) by (rewrite <- Hc; reflexivity).
  injection Hi as ->. exact (proj2 (Hboth eq_refl eq_refl)).
Defined.

(** *** Engine: the window *)

Section Window.

Variable nan_text : string.
Variable argv0 : option string.
Variable path : string.
Variable nc : Z.

Lemma slot_lookup (ts : list (double * double)) (i : nat) (x : double * double) :
  ts !! i = Some x -> slot ts i = x.
Proof. intros H. unfold slot. change (ts !! i) with (ts !! i) in H.
  destruct (ts !! i); simplify_eq/=; done. Qed.

Lemma pad_replicate (n i : nat) (r : double * double) (rest : list (double * double)) :
  (0 < i)%nat -> length rest = n ->
  pad n i (replicate i r ++ rest) = replicate (i + n) r.
Proof.
  revert i rest; induction n as [|n IH]; intros i rest Hi Hl.
  - destruct rest; [|done]. simpl. by rewrite app_nil_r, Nat.add_0_r.
  - destruct rest as [|x rest]; [done|]. cbn [pad].
    rewrite (slot_lookup _ _ r).
    2:{ rewrite lookup_app_l by (rewrite length_replicate; lia).
        apply lookup_replicate_2. lia. }
    replace (<[i:=r]> (replicate i r ++ x :: rest))
      with (replicate (S i) r ++ rest).
    + rewrite IH; [f_equal; lia | lia | by injection Hl].
    + rewrite replicate_S_end, <- app_assoc. simpl.
      pose proof (insert_app_r (replicate i r) (x :: rest) 0 r) as H.
      rewrite length_replicate, Nat.add_0_r in H. by rewrite H.
Qed.

Lemma start_times (new : nat) (r : double * double) :
  times (start nc new r) = replicate (S new) r.
Proof.
  unfold start. cbn [times replicate]. cbn [insert list_insert].
  apply (pad_replicate new 1 r (replicate new (S754_nan, S754_nan))); [lia|].
  apply length_replicate.
Qed.

Lemma shift_lookup (n i : nat) (ts : list (double * double)) (j : nat) :
  (i + n < length ts)%nat ->
  shift n i ts !! j =
  if decide (i <= j < i + n)%nat then ts !! S j else ts !! j.
Proof.
  revert i ts; induction n as [|n IH]; intros i ts Hl.
  - simpl. rewrite decide_False by lia. done.
  - cbn [shift]. rewrite IH by (rewrite length_insert; lia).
    destruct (lookup_lt_is_Some_2 ts (S i)) as [x Hx]; [lia|].
    rewrite (slot_lookup _ _ _ Hx).
    destruct (decide (S i <= j < S i + n)%nat).
    + rewrite decide_True by lia. apply list_lookup_insert_ne. lia.
    + destruct (decide (j = i)) as [->|Hne].
      * rewrite decide_True by lia. rewrite list_lookup_insert_eq by lia. done.
      * rewrite decide_False by lia. apply list_lookup_insert_ne. lia.
Qed.

Lemma shift_length (n i : nat) (ts : list (double * double)) :
  length (shift n i ts) = length ts.
Proof.
  revert i ts; induction n as [|n IH]; intros i ts; [done|].
  cbn [shift]. by rewrite IH, length_insert.
Qed.

(** Shifting down and storing the new reading in the last slot drops
    the oldest sample and appends the new one. *)
Lemma shift_append (new : nat) (ts : list (double * double)) (r : double * double) :
  length ts = S new ->
  <[new := r]> (shift new 0 ts) = drop 1 ts ++ [r].
Proof.
  intros Hl. apply list_eq. intros j.
  destruct (decide (j = new)) as [->|Hne].
  - rewrite list_lookup_insert_eq by (rewrite shift_length; lia).
    rewrite lookup_app_r by (rewrite length_drop; lia).
    rewrite length_drop, Hl. by replace (new - (S new - 1))%nat with 0%nat by lia.
  - rewrite list_lookup_insert_ne by done.
    rewrite shift_lookup by lia.
    destruct (decide (j < new)%nat).
    + rewrite decide_True by lia.
      rewrite lookup_app_l by (rewrite length_drop; lia).
      by rewrite lookup_drop.
    + rewrite decide_False by lia.
      rewrite lookup_ge_None_2 by lia.
      symmetry. apply lookup_ge_None_2. rewrite length_app, length_drop. simpl. lia.
Qed.

(** One iteration in which every call succeeds. *)
Lemma iteration_ok (new : nat) (ev : tick_events) (r : double * double)
    (e : engine) (w : world) :
  tick_ok ev r -> length (times e) = S new ->
  exists w',
    iteration nan_text argv0 path nc new ev e w =
      Looping (Engine (drop 1 (times e) ++ [r])
                 (windowed nc (slot (drop 1 (times e) ++ [r]) 0) r)) w' /\
    stderr w' = stderr w.
Proof.
  intros (Hw & Hs & Hr) Hl. unfold iteration.
  destruct (writeutil nan_text argv0 (u e) path (write_ev ev) w) as [ret w1] eqn:Ew.
  assert (Hret : ret = 0 /\ stderr w1 = stderr w).
  { unfold writeutil in Ew. destruct (write_ev ev) as [|s|]; [| by destruct (Hw s) |];
      injection Ew as <- <-; done. }
  destruct Hret as [-> Hst]. change (0 <? 0) with false. cbv iota.
  rewrite Hr. cbn [readuptime]. change (0 <? 0) with false. cbv iota.
  replace (fst r, snd r) with r by (by destruct r).
  rewrite (shift_append new (times e) r Hl).
  assert (Hnew : slot (drop 1 (times e) ++ [r]) new = r).
  { apply slot_lookup. rewrite lookup_app_r by (rewrite length_drop; lia).
    rewrite length_drop, Hl. by replace (new - (S new - 1))%nat with 0%nat by lia. }
  exists w1. split; [|exact Hst].
  destruct (sleep_ev ev) as [| |s]; [| | by destruct (Hs s)];
    unfold windowed, idletimediff, uptimediff; by rewrite Hnew.
Qed.

Lemma loop_app (new : nat) (evs1 evs2 : list tick_events) (e : engine) (w : world) :
  loop nan_text argv0 path nc new (evs1 ++ evs2) e w =
  match loop nan_text argv0 path nc new evs1 e w with
  | Looping e' w' => loop nan_text argv0 path nc new evs2 e' w'
  | r => r
  end.
Proof.
  revert e w; induction evs1 as [|ev evs1 IH]; intros e w; [done|].
  cbn [loop app]. destruct (iteration _ _ _ _ _ ev e w); auto.
Qed.

Lemma history_snoc (new : nat) (r0 : double * double) (rs : list (double * double))
    (r : double * double) :
  history new r0 (rs ++ [r]) = history new r0 rs ++ [r].
Proof. unfold history. by rewrite app_comm_cons, app_assoc. Qed.

Lemma history_length (new : nat) (r0 : double * double) (rs : list (double * double)) :
  length (history new r0 rs) = (new + S (length rs))%nat.
Proof. unfold history. rewrite length_app, length_replicate. done. Qed.

(** The run of the loop on ticks that all succeed: the window holds the
    last [new + 1] readings. *)
Lemma loop_ok (new : nat) (r0 : double * double) (evs : list tick_events)
    (rs : list (double * double)) (w : world) :
  Forall2 tick_ok evs rs ->
  exists e w',
    loop nan_text argv0 path nc new evs (start nc new r0) w = Looping e w' /\
    times e = drop (length rs) (history new r0 rs) /\
    stderr w' = stderr w /\
    (forall r, last rs = Some r -> u e = windowed nc (slot (times e) 0) r).
Proof.
  intros H. revert evs H. induction rs as [|r rs IH] using rev_ind; intros evs H.
  - apply Forall2_nil_inv_r in H as ->. exists (start nc new r0), w.
    split; [done|]. split; [|split; [done|intros r [=]]].
    rewrite start_times. unfold history. cbn [length drop]. apply replicate_S_end.
  - apply Forall2_app_inv_r in H as (evs1 & evs2 & H1 & H2 & ->).
    apply Forall2_cons_inv_r in H2 as (ev & evs3 & Hev & H3 & ->).
    apply Forall2_nil_inv_r in H3 as ->.
    destruct (IH evs1 H1) as (e & w' & Hloop & Ht & Hst & _).
    assert (Hlen : length (times e) = S new).
    { rewrite Ht, length_drop, history_length. lia. }
    destruct (iteration_ok new ev r e w' Hev Hlen) as (w2 & Hit & Hst2).
    eexists _, w2. rewrite loop_app, Hloop. cbn [loop]. rewrite Hit.
    split; [reflexivity|]. cbn [times u].
    split; [|split; [congruence|]].
    + rewrite Ht, drop_drop, history_snoc, length_app. simpl.
      rewrite drop_app_le by (rewrite history_length; lia). done.
    + intros r'. rewrite last_snoc. by intros [= <-].
Qed.

End Window.

(** *** Arithmetic on [double] *)

Lemma dsub_diag (x : double) : d_finite x = true -> dsub x x = S754_zero false.
Proof.
  destruct x as [[|]| | |s m e]; try done. intros _.
  unfold dsub, SFsub. cbv zeta. rewrite Z.sub_diag. reflexivity.
Qed.

Lemma utilisation_zero_delta (idle : double) :
  utilisation 1 (dsub idle idle) (S754_zero false) = S754_nan.
Proof.
  destruct idle as [[|]|[|]| |s m e]; try reflexivity.
  rewrite dsub_diag by done. reflexivity.
Qed.

(** *** Formatting *)

Lemma string_of_uint_digits (d : Decimal.uint) :
  digits_only (NilEmpty.string_of_uint d) = true.
Proof. induction d; simpl; auto. Qed.

Lemma fmt_N_digits (n : N) : digits_only (fmt_N n) = true /\ fmt_N n <> "".
Proof.
  unfold fmt_N, NilZero.string_of_uint.
  destruct (N.to_uint n) eqn:E; try done;
    (split; [apply (string_of_uint_digits (_ u)) || apply string_of_uint_digits | done]).
Qed.

Lemma fmt_N_single (t : N) :
  (t < 10)%N -> exists c, fmt_N t = String c "" /\ not_digit c = false.
Proof.
  intros H.
  assert (Ht : t ∈ [0; 1; 2; 3; 4; 5; 6; 7; 8; 9]%N).
  { apply list_elem_of_In. simpl. lia. }
  rewrite !elem_of_cons, elem_of_nil in Ht.
  destruct Ht as [->|[->|[->|[->|[->|[->|[->|[->|[->|[->|[]]]]]]]]]]];
    eexists; split; reflexivity.
Qed.

Lemma tenths_nonneg (m : positive) (e : Z) : 0 <= tenths m e.
Proof.
  unfold tenths. destruct (0 <=? e) eqn:He.
  - apply Z.leb_le in He. pose proof (Z.pow_nonneg 2 e ltac:(lia)). nia.
  - apply Z.leb_gt in He.
    assert (Hd : 0 < 2 ^ (- e)) by (apply Z.pow_pos_nonneg; lia).
    pose proof (Z.div_pos (Z.pos m * 10) (2 ^ (- e)) ltac:(lia) Hd).
    destruct (_ >? _); [lia|]. destruct (_ && _); lia.
Qed.

(** The number of tenths printed is the nearest to ten times the value,
    with ties going to the even one. *)
Lemma tenths_nearest (m : positive) (e : Z) :
  (0 <= e -> tenths m e = Z.pos m * 2 ^ e * 10) /\
  (e < 0 ->
   2 * Z.abs (tenths m e * 2 ^ (- e) - Z.pos m * 10) <= 2 ^ (- e) /\
   (2 * Z.abs (tenths m e * 2 ^ (- e) - Z.pos m * 10) = 2 ^ (- e) ->
    Z.even (tenths m e) = true)).
Proof.
  unfold tenths. split; intros He.
  - by replace (0 <=? e) with true by (symmetry; apply Z.leb_le; lia).
  - replace (0 <=? e) with false by (symmetry; apply Z.leb_gt; lia).
    assert (Hd : 0 < 2 ^ (- e)) by (apply Z.pow_pos_nonneg; lia).
    set (den := 2 ^ (- e)) in *. set (num := Z.pos m * 10).
    pose proof (Z.div_mod num den ltac:(lia)) as Hdm.
    pose proof (Z.mod_pos_bound num den Hd) as Hb.
    set (q := num / den) in *. set (r := num mod den) in *.
    destruct (2 * r >? den) eqn:H1.
    + apply Z.gtb_lt in H1. split; [nia|]. intros Heq. exfalso. nia.
    + rewrite Z.gtb_ltb in H1. apply Z.ltb_ge in H1.
      destruct (2 * r =? den) eqn:H2.
      * apply Z.eqb_eq in H2. destruct (Z.odd q) eqn:Ho; cbn [andb].
        -- split; [nia|]. intros _. rewrite Z.even_add, <- Z.negb_odd, Ho. reflexivity.
        -- split; [nia|]. intros _. by rewrite <- Z.negb_odd, Ho.
      * apply Z.eqb_neq in H2. cbn [andb]. split; [nia|]. intros Heq. exfalso. nia.
Qed.


(** An iteration that reaches the end of the loop body was one in which
    every call succeeded. *)
Lemma iteration_Looping_inv (nan_text : string) (argv0 : option string) (path : string)
    (nc : Z) (new : nat) (ev : tick_events) (e e' : engine) (w w' : world) :
  iteration nan_text argv0 path nc new ev e w = Looping e' w' ->
  exists r, tick_ok ev r /\
    w' = snd (writeutil nan_text argv0 (u e) path (write_ev ev) w).
Proof.
  unfold iteration, tick_ok.
  destruct (write_ev ev) as [|s|] eqn:Ew; cbn [writeutil]; try discriminate;
    change (0 <? 0) with false; cbv iota;
    (destruct (sleep_ev ev) as [| |s] eqn:Es; try discriminate);
    (destruct (read_ev ev) as [up idle|s|s] eqn:Er; cbn [readuptime]; try discriminate);
    change (0 <? 0) with false; cbv iota; intros [= <- <-];
    exists (up, idle); repeat split; try done.
Qed.

Lemma history_lookup (new : nat) (r0 : double * double) (rs : list (double * double))
    (k : nat) :
  slot (drop k (history new r0 rs)) 0 =
  if decide (k <= new)%nat then r0
  else default (S754_nan, S754_nan) (rs !! (k - new - 1)%nat).
Proof.
  unfold slot. rewrite lookup_drop, Nat.add_0_r. unfold history.
  destruct (decide (k <= new)%nat) as [Hle|Hgt].
  - destruct (decide (k = new)) as [->|Hne].
    + rewrite lookup_app_r by (rewrite length_replicate; lia).
      rewrite length_replicate, Nat.sub_diag. reflexivity.
    + rewrite lookup_app_l by (rewrite length_replicate; lia).
      rewrite lookup_replicate_2 by lia. reflexivity.
  - rewrite lookup_app_r by (rewrite length_replicate; lia).
    rewrite length_replicate.
    remember (k - new - 1)%nat as j eqn:Ej.
    replace (k - new)%nat with (S j) by lia. reflexivity.
Qed.

(** C5.  The window of [new + 1] samples starts as copies of the first
    reading; every tick that succeeds drops the oldest sample and
    appends the new reading.  After the ticks [rs] the window holds the
    last [new + 1] readings, and the utilisation is computed from the
    newest reading and the one taken [new] ticks earlier (the first
    reading while there have been at most [new] ticks): no reading in
    between enters it. *)
Theorem window_is_fifo (nan_text : string) (argv0 : option string) (path : string)
    (nc : Z) (new : nat) (r0 : double * double) (evs : list tick_events)
    (rs : list (double * double)) (w : world) :
  Forall2 tick_ok evs rs ->
  times (start nc new r0) = replicate (S new) r0 /\
  (exists e w',
     loop nan_text argv0 path nc new evs (start nc new r0) w = Looping e w' /\
     times e = drop (length rs) (history new r0 rs) /\
     length (times e) = S new /\
     (forall r, last rs = Some r ->
        u e = windowed nc
                (if decide (length rs <= new)%nat then r0
                 else default r0 (rs !! (length rs - new - 1)%nat)) r)) /\
  (forall ev r e1 w1,
     tick_ok ev r -> length (times e1) = S new ->
     exists e2 w2,
       iteration nan_text argv0 path nc new ev e1 w1 = Looping e2 w2 /\
       times e2 = drop 1 (times e1) ++ [r]).
Proof.
  intros H. split; [apply start_times|]. split.
  - destruct (loop_ok nan_text argv0 path nc new r0 evs rs w H)
      as (e & w' & Hl & Ht & _ & Hu).
    exists e, w'. split; [done|]. split; [done|].
    split; [rewrite Ht, length_drop, history_length; lia|].
    intros r Hr. rewrite (Hu r Hr), Ht, history_lookup.
    destruct (decide (length rs <= new)%nat); [done|].
    assert (Hlt : (length rs - new - 1 < length rs)%nat)
      by (destruct rs; [discriminate Hr | simpl; lia]).
    destruct (lookup_lt_is_Some_2 rs _ Hlt) as [x Hx].
    unfold double in *. rewrite Hx. reflexivity.
  - intros ev r e1 w1 Hev Hl.
    destruct (iteration_ok nan_text argv0 path nc new ev r e1 w1 Hev Hl) as (w2 & Hit & _).
    eexists _, w2. split; [exact Hit | done].
Qed.

Lemma window_is_fifo_witness :
  exists e w',
    loop "nan" (Some "cpuwatch") "out" 4 2
      [Tick WriteOk SleepOk (ReadOk (d_of_int 11) (d_of_int 1));
       Tick WriteOk SleepInterrupted (ReadOk (d_of_int 12) (d_of_int 2));
       Tick WriteOk SleepOk (ReadOk (d_of_int 13) (d_of_int 3))]
      (start 4 2 (d_of_int 10, d_of_int 0)) (World ∅ "") = Looping e w' /\
    times e = [(d_of_int 11, d_of_int 1); (d_of_int 12, d_of_int 2);
               (d_of_int 13, d_of_int 3)] /\
    u e = windowed 4 (d_of_int 11, d_of_int 1) (d_of_int 13, d_of_int 3).
Proof.
  destruct (window_is_fifo "nan" (Some "cpuwatch") "out" 4 2 (d_of_int 10, d_of_int 0)
     [Tick WriteOk SleepOk (ReadOk (d_of_int 11) (d_of_int 1));
      Tick WriteOk SleepInterrupted (ReadOk (d_of_int 12) (d_of_int 2));
      Tick WriteOk SleepOk (ReadOk (d_of_int 13) (d_of_int 3))]
     [(d_of_int 11, d_of_int 1); (d_of_int 12, d_of_int 2); (d_of_int 13, d_of_int 3)]
     (World ∅ ""))
    as (_ & (e & w' & Hl & Ht & _ & Hu) & _).
  { repeat constructor; discriminate. }
  exists e, w'. split; [exact Hl|]. split; [exact Ht|]. exact (Hu _ eq_refl).
Defined.

(** C4.  After an iteration of the loop that completes, [u] is
    100 - 100 * ((idleNew - idleOld) / ncpu / (upNew - upOld)) with
    (upOld, idleOld) the first and (upNew, idleNew) the last sample of
    the updated window, the last one being the reading just taken.
    With one CPU, the readings (100.0, 80.0) and (101.0, 80.5) give
    50.0, written as "50.0%". *)
Theorem utilisation_is_windowed_delta (nan_text : string) (argv0 : option string)
    (path : string) (nc : Z) (new : nat) (ev : tick_events) (e e' : engine) (w w' : world) :
  length (times e) = S new ->
  iteration nan_text argv0 path nc new ev e w = Looping e' w' ->
  (exists old newest,
     head (times e') = Some old /\ last (times e') = Some newest /\
     read_ev ev = ReadOk (fst newest) (snd newest) /\
     u e' = dsub (d_of_int 100)
              (dmul (d_of_int 100)
                 (ddiv (ddiv (dsub (snd newest) (snd old)) (d_of_int nc))
                       (dsub (fst newest) (fst old))))) /\
  windowed 1 (d_of_int 100, d_of_int 80) (d_of_int 101, d_of_bin 161 (-1)) = d_of_int 50 /\
  fmt_1f nan_text (d_of_int 50) +:+ "%" = "50.0%" /\
  (exists e2 w2,
     main nan_text ["cpuwatch"; "-o"; "out"; "-c"; "1"]
       (ReadOk (d_of_int 100) (d_of_int 80))
       [Tick WriteOk SleepOk (ReadOk (d_of_int 101) (d_of_bin 161 (-1)));
        Tick WriteOk SleepOk (ReadOk (d_of_int 102) (d_of_int 81))]
       (World ∅ "") = Looping e2 w2 /\
     files w2 !! "out" = Some "50.0%").
Proof.
  intros Hl Hit. split; [|split; [|split]].
  - destruct (iteration_Looping_inv _ _ _ _ _ _ _ _ _ _ Hit) as (r & Hr & _).
    destruct (iteration_ok nan_text argv0 path nc new ev r e w Hr Hl) as (w2 & Hit2 & _).
    rewrite Hit2 in Hit. injection Hit as <- <-. cbn [times u].
    destruct (drop 1 (times e) ++ [r]) as [|old l] eqn:El.
    { by destruct (drop 1 (times e)). }
    exists old, r. split; [done|]. split; [by rewrite <- El, last_snoc|].
    split; [apply Hr|]. reflexivity.
  - vm_compute. reflexivity.
  - vm_compute. reflexivity.
  - eexists _, _. split; [vm_compute; reflexivity|]. vm_compute. reflexivity.
Qed.

Lemma utilisation_is_windowed_delta_witness :
  exists old newest,
    old = (d_of_int 100, d_of_int 80) /\ newest = (d_of_int 101, d_of_bin 161 (-1)) /\
    dsub (d_of_int 100)
      (dmul (d_of_int 100)
         (ddiv (ddiv (dsub (snd newest) (snd old)) (d_of_int 1))
               (dsub (fst newest) (fst old)))) = d_of_int 50.
Proof.
  destruct (utilisation_is_windowed_delta "nan" (Some "cpuwatch") "out" 1 1
              (Tick WriteOk SleepOk (ReadOk (d_of_int 101) (d_of_bin 161 (-1))))
              (start 1 1 (d_of_int 100, d_of_int 80))
              (Engine [(d_of_int 100, d_of_int 80); (d_of_int 101, d_of_bin 161 (-1))]
                      (d_of_int 50))
              (World ∅ "") (World {["out" := "20.0%"]} "") eq_refl eq_refl)
    as ((old & newest & Ho & Hn & _ & Hu) & _).
  exists old, newest. injection Ho as <-. injection Hn as <-.
  split; [reflexivity|]. split; [reflexivity|]. symmetry. exact Hu.
Defined.

Lemma eprint_empty (w : world) : eprint w "" = w.
Proof. destruct w as [f s]. unfold eprint. cbn [files stderr]. by rewrite append_nil_r. Qed.

(** [main] on an accepted command line: the loop is entered with the
    window filled with the first reading. *)
Lemma main_accepted (nan_text : string) (argv : list string) (o : options) (path : string)
    (up idle : double) (evs : list tick_events) (w : world) :
  accepts argv o -> given_h o = 0 -> output o = Some path -> 0 <= avg o < 2147483647 ->
  main nan_text argv (ReadOk up idle) evs w =
  loop nan_text (argv !! 0%nat) path (ncpu o) (Z.to_nat (avg o)) evs
       (start (ncpu o) (Z.to_nat (avg o)) (up, idle)) w.
Proof.
  intros Ha Hh Ho Hn. unfold accepts in Ha. unfold main. rewrite Ha.
  cbn [p_ret p_options p_stderr]. rewrite Hh, Ho, eprint_empty.
  change ((0 <? 0) || negb (0 =? 0)) with false. cbv iota.
  replace (wrap_int (avg o + 1) <=? 0) with false.
  - cbn [readuptime]. change (0 <? 0) with false. reflexivity.
  - symmetry. apply Z.leb_gt. unfold wrap_int.
    rewrite Z.mod_small by lia. lia.
Qed.

(** C9.  After an iteration in which the write succeeds, the output
    file holds exactly the utilisation formatted by "%.1f" followed by
    '%', with nothing after it; no other file and nothing on [stderr]
    changes.  For a finite value the text is an optional '-', the
    digits of the integer part, a dot and one digit, the number of
    tenths being the nearest to ten times the value. *)
Theorem output_file_holds_one_decimal_percent (nan_text : string) (argv0 : option string)
    (path : string) (nc : Z) (new : nat) (ev : tick_events) (e e' : engine) (w w' : world) :
  write_ev ev = WriteOk ->
  iteration nan_text argv0 path nc new ev e w = Looping e' w' ->
  files w' !! path = Some (fmt_1f nan_text (u e) +:+ "%") /\
  (forall other, other <> path -> files w' !! other = files w !! other) /\
  stderr w' = stderr w /\
  (d_finite (u e) = true ->
   exists (s : bool) (t : Z) (c : ascii),
     fmt_1f nan_text (u e) =
       sign_text s +:+ fmt_N (Z.to_N t / 10) +:+ "." +:+ String c "" /\
     digits_only (fmt_N (Z.to_N t / 10)) = true /\ fmt_N (Z.to_N t / 10) <> "" /\
     not_digit c = false /\ fmt_N (Z.to_N t mod 10) = String c "" /\
     match u e with
     | S754_finite _ m ex =>
         t = tenths m ex /\
         (0 <= ex -> t = Z.pos m * 2 ^ ex * 10) /\
         (ex < 0 -> 2 * Z.abs (t * 2 ^ (- ex) - Z.pos m * 10) <= 2 ^ (- ex))
     | _ => t = 0
     end).
Proof.
  intros Hw Hit.
  destruct (iteration_Looping_inv _ _ _ _ _ _ _ _ _ _ Hit) as (r & _ & ->).
  rewrite Hw. cbn [writeutil snd files stderr].
  split; [apply lookup_insert_eq|]. split; [intros other Hne; by apply lookup_insert_ne|].
  split; [done|]. intros Hf.
  destruct (u e) as [s| | |s m ex]; try discriminate Hf.
  - exists s, 0, "0"%char. repeat split; reflexivity || done.
  - set (t := tenths m ex).
    destruct (fmt_N_single (Z.to_N t mod 10)) as (c & Hc & Hd).
    { apply N.mod_lt. done. }
    destruct (fmt_N_digits (Z.to_N t / 10)) as [H1 H2].
    destruct (tenths_nearest m ex) as [H3 H4].
    exists s, t, c. cbn [fmt_1f]. fold t. rewrite Hc.
    repeat split; auto. intros Hex. by apply H4.
Qed.

Lemma output_file_holds_one_decimal_percent_witness :
  files (World (<["out" := "23.7%"]> ∅) "") !! "out" =
  Some (fmt_1f "nan" (ddiv (d_of_int 237) (d_of_int 10)) +:+ "%").
Proof.
  apply (output_file_holds_one_decimal_percent "nan" (Some "cpuwatch") "out" 1 1
           (Tick WriteOk SleepOk (ReadOk (d_of_int 101) (d_of_int 81)))
           (Engine [(d_of_int 100, d_of_int 80); (d_of_int 100, d_of_int 80)]
                   (ddiv (d_of_int 237) (d_of_int 10)))
           (Engine [(d_of_int 100, d_of_int 80); (d_of_int 101, d_of_int 81)] (d_of_int 0))
           (World ∅ "") (World (<["out" := "23.7%"]> ∅) "")); reflexivity.
Defined.

(** C8, evaluated on the code.  When [fopen] succeeds and the text does
    not reach the file, [writeutil] still returns 0: the iteration goes
    on with the sleep and the next reading, the file is left empty, and
    the next iteration writes a further utilisation value. *)
Theorem failed_write_is_not_noticed (nan_text : string) (argv0 : option string)
    (path : string) (nc : Z) (new : nat) (ev ev2 : tick_events)
    (r r2 : double * double) (e : engine) (w : world) :
  write_ev ev = WriteFails -> tick_ok ev r ->
  write_ev ev2 = WriteOk -> tick_ok ev2 r2 ->
  length (times e) = S new ->
  writeutil nan_text argv0 (u e) path WriteFails w =
    (0, World (<[path := ""]> (files w)) (stderr w)) /\
  exists e1 w1 e2 w2,
    iteration nan_text argv0 path nc new ev e w = Looping e1 w1 /\
    files w1 !! path = Some "" /\ stderr w1 = stderr w /\
    loop nan_text argv0 path nc new [ev; ev2] e w = Looping e2 w2 /\
    files w2 !! path = Some (fmt_1f nan_text (u e1) +:+ "%").
Proof.
  intros Hw Hev Hw2 Hev2 Hl. split; [reflexivity|].
  destruct (iteration_ok nan_text argv0 path nc new ev r e w Hev Hl) as (w1 & Hit & Hst).
  pose proof (iteration_Looping_inv _ _ _ _ _ _ _ _ _ _ Hit) as (_ & _ & Hw1).
  rewrite Hw in Hw1. cbn [writeutil snd] in Hw1.
  set (e1 := Engine _ _) in Hit.
  assert (Hl1 : length (times e1) = S new).
  { unfold e1. cbn [times]. rewrite length_app, length_drop, Hl. simpl. lia. }
  destruct (iteration_ok nan_text argv0 path nc new ev2 r2 e1 w1 Hev2 Hl1)
    as (w2 & Hit2 & _).
  pose proof (iteration_Looping_inv _ _ _ _ _ _ _ _ _ _ Hit2) as (_ & _ & Hw2').
  rewrite Hw2 in Hw2'. cbn [writeutil snd] in Hw2'.
  eexists e1, w1, _, w2. split; [exact Hit|].
  split; [rewrite Hw1; apply lookup_insert_eq|]. split; [exact Hst|].
  split; [cbn [loop]; rewrite Hit, Hit2; reflexivity|].
  rewrite Hw2'. apply lookup_insert_eq.
Qed.

Lemma failed_write_is_not_noticed_witness :
  exists e2 w2,
    loop "nan" (Some "cpuwatch") "/dev/full" 1 1
      [Tick WriteFails SleepOk (ReadOk (d_of_int 101) (d_of_bin 161 (-1)));
       Tick WriteOk SleepOk (ReadOk (d_of_int 102) (d_of_int 81))]
      (start 1 1 (d_of_int 100, d_of_int 80)) (World ∅ "") = Looping e2 w2 /\
    files w2 !! "/dev/full" = Some "50.0%".
Proof.
  destruct (failed_write_is_not_noticed "nan" (Some "cpuwatch") "/dev/full" 1 1
     (Tick WriteFails SleepOk (ReadOk (d_of_int 101) (d_of_bin 161 (-1))))
     (Tick WriteOk SleepOk (ReadOk (d_of_int 102) (d_of_int 81)))
     (d_of_int 101, d_of_bin 161 (-1)) (d_of_int 102, d_of_int 81)
     (start 1 1 (d_of_int 100, d_of_int 80)) (World ∅ ""))
    as (_ & e1 & w1 & e2 & w2 & Hit & _ & _ & Hl & Hf);
    try reflexivity; try (repeat split; discriminate || reflexivity).
  exists e2, w2. split; [exact Hl|].
  injection Hit as <- _. exact Hf.
Defined.

(** C10.  The arguments [-o PATH -c 1 -n 0] are accepted with [avg] 0;
    the window then has a single slot, and after every tick that
    succeeds, whatever finite numbers were read, [uptimediff] is 0.0
    and the utilisation is the result of dividing by it, a NaN. *)
Theorem zero_samples_divide_by_zero (nan_text prog path : string)
    (r0 : double * double) (evs : list tick_events) (rs : list (double * double))
    (w : world) :
  Forall2 tick_ok evs rs ->
  Forall (fun r => d_finite (fst r) = true) rs ->
  accepts [prog; "-o"; path; "-c"; "1"; "-n"; "0"]
          (Options (Some path) (d_of_int 1) 1 0 0) /\
  exists e w',
    main nan_text [prog; "-o"; path; "-c"; "1"; "-n"; "0"]
         (ReadOk (fst r0) (snd r0)) evs w = Looping e w' /\
    length (times e) = 1%nat /\
    (rs <> [] ->
     uptimediff 0 (times e) = S754_zero false /\
     u e = utilisation 1 (idletimediff 0 (times e)) (S754_zero false) /\
     u e = S754_nan).
Proof.
  intros H Hfin.
  assert (Ha : accepts [prog; "-o"; path; "-c"; "1"; "-n"; "0"]
                 (Options (Some path) (d_of_int 1) 1 0 0)).
  { unfold accepts. erewrite parseCmdLine_scan.
    2:{ apply (scan_by_fuel 4). scan_o.
        scan_c (eq_refl : parse_int "1" 0 = (1, false)).
        scan_n (eq_refl : parse_int "0" 0 = (0, false)). scan_done. }
    vm_compute. reflexivity. }
  split; [exact Ha|].
  rewrite (main_accepted nan_text _ _ path (fst r0) (snd r0) evs w Ha eq_refl eq_refl)
    by (cbn; lia).
  cbn [ncpu avg Z.to_nat]. replace (fst r0, snd r0) with r0 by (by destruct r0).
  destruct (loop_ok nan_text ([prog; "-o"; path; "-c"; "1"; "-n"; "0"] !! 0%nat)
              path 1 0 r0 evs rs w H) as (e & w' & Hl & Ht & _ & Hu).
  exists e, w'. split; [exact Hl|].
  split; [rewrite Ht, length_drop, history_length; lia|].
  intros Hne. destruct (exists_last Hne) as (rs' & r & ->).
  assert (Hte : times e = [r]).
  { rewrite Ht. unfold history. cbn [replicate app]. rewrite length_app. cbn [length].
    rewrite Nat.add_1_r. cbn [drop]. rewrite drop_app_length. reflexivity. }
  rewrite Forall_app, Forall_singleton in Hfin. destruct Hfin as [_ Hr].
  specialize (Hu r (last_snoc _ _)). rewrite Hte in Hu. rewrite Hte.
  change (slot [r] 0) with r in Hu. unfold windowed in Hu.
  change (uptimediff 0 [r]) with (dsub (fst r) (fst r)).
  change (idletimediff 0 [r]) with (dsub (snd r) (snd r)).
  rewrite (dsub_diag (fst r) Hr) in *.
  split; [reflexivity|]. split; [exact Hu|]. rewrite Hu. apply utilisation_zero_delta.
Qed.

Lemma zero_samples_divide_by_zero_witness :
  exists e w',
    main "nan" ["cpuwatch"; "-o"; "out"; "-c"; "1"; "-n"; "0"]
         (ReadOk (d_of_int 100) (d_of_int 80))
         [Tick WriteOk SleepOk (ReadOk (d_of_int 101) (d_of_bin 161 (-1)))]
         (World ∅ "") = Looping e w' /\
    uptimediff 0 (times e) = S754_zero false /\ u e = S754_nan.
Proof.
  destruct (zero_samples_divide_by_zero "nan" "cpuwatch" "out"
              (d_of_int 100, d_of_int 80)
              [Tick WriteOk SleepOk (ReadOk (d_of_int 101) (d_of_bin 161 (-1)))]
              [(d_of_int 101, d_of_bin 161 (-1))] (World ∅ ""))
    as (_ & e & w' & Hm & _ & Hz).
  { repeat constructor; discriminate. }
  { repeat constructor. }
  exists e, w'. split; [exact Hm|].
  destruct Hz as (H1 & _ & H3); [discriminate|]. split; [exact H1 | exact H3].
Defined.

(** * Further properties *)

(** ** The values [case 'c'] and [case 'n'] store *)

Lemma wrap_int_mod (x : Z) : wrap_int x mod 4294967296 = x mod 4294967296.
Proof.
  unfold wrap_int.
  rewrite Zminus_mod, Z.mod_mod by lia.
  rewrite <- Zminus_mod. f_equal. lia.
Qed.

Lemma wrap_int_eq (x y : Z) :
  x mod 4294967296 = y mod 4294967296 -> wrap_int x = wrap_int y.
Proof.
  intros H. unfold wrap_int.
  rewrite (Zplus_mod x), (Zplus_mod y), H. reflexivity.
Qed.

Lemma wrap_int_small (x : Z) : -2147483648 <= x < 2147483648 -> wrap_int x = x.
Proof. intros H. unfold wrap_int. rewrite Z.mod_small by lia. lia. Qed.

Lemma wrap_int_step (a d : Z) :
  wrap_int (wrap_int (wrap_int a * 10) + d) = wrap_int (a * 10 + d).
Proof.
  apply wrap_int_eq.
  rewrite Zplus_mod, wrap_int_mod, Zmult_mod, wrap_int_mod, <- Zmult_mod, <- Zplus_mod.
  reflexivity.
Qed.

Lemma parse_int_value (s : string) (a : Z) :
  digits_only s = true ->
  parse_int s (wrap_int a) = (wrap_int (decimal_value s a), false).
Proof.
  revert a; induction s as [|c s IH]; intros a Hd; [done|].
  cbn [digits_only] in Hd. apply andb_true_iff in Hd as [Hc Hs].
  apply negb_true_iff in Hc. cbn [parse_int decimal_value]. rewrite Hc.
  rewrite wrap_int_step. by apply IH.
Qed.

Lemma decimal_value_acc (d : Decimal.uint) (acc : positive) :
  decimal_value (NilEmpty.string_of_uint d) (Z.pos acc) = Z.pos (Pos.of_uint_acc d acc).
Proof.
  revert acc; induction d; intros acc; cbn [NilEmpty.string_of_uint decimal_value Pos.of_uint_acc];
    try reflexivity; rewrite <- IHd; f_equal; vm_compute (char_code _ - char_code _); lia.
Qed.

Lemma decimal_value_of_uint (d : Decimal.uint) :
  decimal_value (NilEmpty.string_of_uint d) 0 = Z.of_N (Pos.of_uint d).
Proof.
  induction d; cbn [NilEmpty.string_of_uint decimal_value Pos.of_uint];
    try reflexivity; try exact IHd;
    vm_compute (0 * 10 + (char_code _ - char_code _)); apply decimal_value_acc.
Qed.

Lemma fmt_d_nonneg (n : Z) : 0 <= n -> fmt_d n = fmt_N (Z.to_N n).
Proof. destruct n; try reflexivity. lia. Qed.

Lemma fmt_N_value (n : N) : decimal_value (fmt_N n) 0 = Z.of_N n.
Proof.
  unfold fmt_N, NilZero.string_of_uint.
  rewrite <- (DecimalN.Unsigned.of_to n) at 2.
  destruct (N.to_uint n) eqn:E; try apply decimal_value_of_uint.
  reflexivity.
Qed.

(** X1.  Parsing the decimal text of a non-negative number with the
    loop of [case 'c'] and [case 'n'] gives the number back, reduced to
    a 32-bit [int]; when it is below 2^31 it is the number itself, and
    the value is not flagged. *)
Theorem parse_int_of_decimal_text (n : Z) :
  0 <= n ->
  parse_int (fmt_d n) 0 = (wrap_int n, false) /\
  (n < 2147483648 -> parse_int (fmt_d n) 0 = (n, false)).
Proof.
  intros Hn.
  assert (H : parse_int (fmt_d n) 0 = (wrap_int n, false)).
  { rewrite fmt_d_nonneg by done.
    change 0 with (wrap_int 0) at 1. rewrite parse_int_value by apply fmt_N_digits.
    rewrite fmt_N_value, Z2N.id by done. reflexivity. }
  split; [exact H|]. intros Hlt. by rewrite H, wrap_int_small by lia.
Qed.

Lemma parse_int_of_decimal_text_witness :
  parse_int "4294967297" 0 = (1, false) /\ parse_int "12" 0 = (12, false).
Proof.
  split.
  - exact (proj1 (parse_int_of_decimal_text 4294967297 ltac:(lia))).
  - exact (proj2 (parse_int_of_decimal_text 12 ltac:(lia)) ltac:(lia)).
Defined.

(** X2.  At the first character that is not a digit the loop of
    [case 'c'] and [case 'n'] stops and flags the value; the [int] kept
    is the value of the digits before that character. *)
Theorem parse_int_stops_at_bad_character (a rest : string) (ch : ascii) :
  digits_only a = true -> not_digit ch = true ->
  parse_int (a +:+ String ch rest) 0 = (wrap_int (decimal_value a 0), true) /\
  parse_int (a +:+ String ch rest) 0 = (fst (parse_int a 0), true).
Proof.
  intros Ha Hc.
  assert (H : forall v, parse_int (a +:+ String ch rest) v = (fst (parse_int a v), true)).
  { clear Ha. induction a as [|c a IH]; intros v.
    - rewrite append_nil_l. cbn [parse_int]. by rewrite Hc.
    - rewrite append_cons. cbn [parse_int]. destruct (not_digit c); [done|]. apply IH. }
  split; [|apply H]. rewrite H. change 0 with (wrap_int 0) at 1.
  by rewrite parse_int_value.
Qed.

Lemma parse_int_stops_at_bad_character_witness :
  parse_int "12x4" 0 = (12, true).
Proof.
  exact (proj1 (parse_int_stops_at_bad_character "12" "4" "x" eq_refl eq_refl)).
Defined.

(** ** What an accepted command line is *)

Lemma short_option_optarg av oi fst lst c rest opt d' :
  Getopt.short_option optstring av oi fst lst c rest = (opt, d') ->
  takes_value opt -> is_Some (Getopt.optarg d').
Proof.
  unfold Getopt.short_option. rewrite missing_code_optstring.
  destruct (Getopt.strchr optstring c) as [temp|] eqn:Hs.
  - pose proof (strchr_optstring _ _ Hs) as Hc.
    rewrite !elem_of_cons, elem_of_nil in Hc.
    destruct Hc as [->|[->|[->|[->|[->|[->|[]]]]]]];
      vm_compute in Hs; injection Hs as <-;
      cbv [Getopt.char_at String.get Ascii.eqb Bool.eqb orb];
      destruct rest; try destruct (av !! S oi);
      intros [= <- <-] [H|[H|[H|H]]]; try discriminate H; cbn; eauto.
  - intros [= <- <-] [H|[H|[H|H]]]; discriminate H.
Qed.

Lemma process_long_option_optarg av oi fst lst text opt d' :
  Getopt.process_long_option optstring getopts av oi fst lst text = (opt, d') ->
  takes_value opt -> is_Some (Getopt.optarg d').
Proof.
  unfold Getopt.process_long_option. rewrite missing_code_optstring.
  destruct (Getopt.split_name text) as [nm value].
  destruct (match find _ getopts with Some p => _ | None => _ end) as [[p|] [|]] eqn:Hf;
    try (intros [= <- <-] [H|[H|[H|H]]]; discriminate H).
  assert (Hp : p ∈ getopts).
  { destruct (find _ getopts) as [q|] eqn:Hq.
    - injection Hf as ->. apply find_some in Hq as [Hq _]. by apply list_elem_of_In.
    - apply abbreviation_elem in Hf as [Hf|Hf]; [done | discriminate]. }
  unfold getopts in Hp. rewrite !elem_of_cons, elem_of_nil in Hp.
  destruct Hp as [->|[->|[->|[->|[->|[]]]]]];
    cbn [Getopt.has_arg Getopt.val Getopt.required_argument Getopt.no_argument];
    destruct value; cbn [Z.eqb Pos.eqb]; try destruct (av !! S oi);
    intros [= <- <-] [H|[H|[H|H]]]; try discriminate H; cbn; eauto.
Qed.

Lemma getopt_long_optarg d opt d' :
  Getopt.getopt_long optstring getopts d = (opt, d') ->
  takes_value opt -> is_Some (Getopt.optarg d').
Proof.
  unfold Getopt.getopt_long.
  destruct (length (Getopt.argv d) <? 1)%nat;
    [intros [= <- <-] [H|[H|[H|H]]]; discriminate H|].
  destruct (Getopt.nextchar d) as [|c rest]; [|apply short_option_optarg].
  destruct (Getopt.permute _ _ _ _) as [[av1 fst1] lst1].
  destruct (av1 !! _) as [word|];
    [|intros [= <- <-] [H|[H|[H|H]]]; discriminate H].
  destruct (Getopt.classify word) as [|text|c rest|].
  - destruct (Getopt.terminate _ _ _ _).
    intros [= <- <-] [H|[H|[H|H]]]; discriminate H.
  - apply process_long_option_optarg.
  - apply short_option_optarg.
  - intros [= <- <-] [H|[H|[H|H]]]; discriminate H.
Qed.

Lemma option_case_invariant opt d c c' :
  (takes_value opt -> is_Some (Getopt.optarg d)) ->
  scan_invariant c -> option_case opt d c = inr c' -> scan_invariant c'.
Proof.
  intros Ha (Ho & Hi & Hc & Hn & Hu & Hout & Hint & Hcpu & Havg & Hh).
  unfold option_case.
  destruct (opt =? char_code "h") eqn:E1; [discriminate|].
  destruct (opt =? char_code "o") eqn:E2.
  { apply Z.eqb_eq in E2. destruct Ha as [a Ha]; [left; done|].
    intros [= <-]. unfold scan_invariant. cbn. rewrite Ha.
    repeat split; auto; try lia; discriminate. }
  destruct (opt =? char_code "i") eqn:E3.
  { destruct (parse_interval _). intros [= <-]. unfold scan_invariant. cbn.
    repeat split; auto; try lia; apply Hout. }
  destruct (opt =? char_code "c") eqn:E4.
  { destruct (parse_int _ _). intros [= <-]. unfold scan_invariant. cbn.
    repeat split; auto; try lia; apply Hout. }
  destruct (opt =? char_code "n") eqn:E5.
  { destruct (parse_int _ _). intros [= <-]. unfold scan_invariant. cbn.
    repeat split; auto; try lia; apply Hout. }
  destruct (opt =? char_code "?") eqn:E6.
  { intros [= <-]. unfold scan_invariant. cbn. repeat split; auto; try lia; apply Hout. }
  destruct (opt =? char_code ":") eqn:E7; [|discriminate].
  intros [= <-]. unfold scan_invariant. cbn. repeat split; auto; try lia; apply Hout.
Qed.

Lemma scan_loop_invariant fuel d c c' :
  scan_invariant c -> scan_loop fuel d c = Some (LoopDone c') -> scan_invariant c'.
Proof.
  revert d c; induction fuel as [|fuel IH]; intros d c Hinv; [discriminate|].
  cbn [scan_loop].
  destruct (Getopt.getopt_long optstring getopts d) as [opt d'] eqn:Hg.
  destruct (opt =? Getopt.DONE); [by intros [= <-]|].
  destruct (option_case opt d' c) as [r|c1] eqn:Hc.
  - intros [= ->]. unfold option_case in Hc.
    repeat (destruct (opt =? _); [first [discriminate Hc | by destruct (parse_interval _) | by destruct (parse_int _ _)]|]).
    discriminate Hc.
  - apply IH. eapply option_case_invariant; eauto.
    intros Ht. eapply getopt_long_optarg; eauto.
Qed.

Lemma scan_invariant_init (n : nat) : scan_invariant (collected_init n).
Proof. unfold scan_invariant. cbn. repeat split; auto; try lia; discriminate. Qed.

Lemma scan_invariant_done (argv : list string) (c : collected) :
  scan argv = Some (LoopDone c) -> scan_invariant c.
Proof. apply scan_loop_invariant, scan_invariant_init. Qed.

Lemma category_false (c : collected) (b : bool) (msg : string) :
  reported c = [] -> (b, msg) ∈ categories c -> b = false.
Proof.
  intros Hr Hin. destruct b; [|done].
  apply reported_elem in Hin. rewrite Hr in Hin. by apply elem_of_nil in Hin.
Qed.

(** X3.  When [parseCmdLine] returns 0 without help, [-o] and [-c] were
    each given exactly once, [-i] and [-n] at most once, no option was
    unknown or lacked its value, no value was flagged, [output] is not
    NULL, the options not given keep their defaults (interval 1.0,
    samples 1), and nothing was printed. *)
Theorem accepted_command_line (argv : list string) (p : parsed) :
  parseCmdLine argv = Some p -> p_ret p = 0 -> given_h (p_options p) = 0 ->
  exists c path,
    scan argv = Some (LoopDone c) /\
    given_o c = 1 /\ given_c c = 1 /\
    (given_i c = 0 \/ given_i c = 1) /\ (given_n c = 0 \/ given_n c = 1) /\
    nunrecognized c = 0 /\ missing c = [] /\
    given_badinterval c = [] /\ given_badncpu c = [] /\ given_badavg c = [] /\
    output (p_options p) = Some path /\
    (given_i c = 0 -> interval (p_options p) = d_of_int 1) /\
    (given_n c = 0 -> avg (p_options p) = 1) /\
    p_stderr p = "".
Proof.
  intros Hp Hret Hh.
  destruct (parseCmdLine_no_help argv p Hp Hh) as (c & Hc & ->).
  pose proof (scan_invariant_done argv c Hc)
    as (Ho & Hi & Hcc & Hn & Hu & Hout & Hint & Hcpu & Havg & _).
  rewrite finish_LoopDone in *. cbn [p_ret p_options p_stderr] in *.
  destruct (decide (reported c = [])) as [Hr|Hr]; [|discriminate Hret].
  assert (Hcat : forall i b msg, categories c !! i = Some (b, msg) -> b = false).
  { intros i b msg Hl. apply (category_false c b msg Hr).
    apply list_elem_of_lookup. eauto. }
  pose proof (Hcat 0%nat _ _ eq_refl) as H0. pose proof (Hcat 1%nat _ _ eq_refl) as H1.
  pose proof (Hcat 2%nat _ _ eq_refl) as H2. pose proof (Hcat 3%nat _ _ eq_refl) as H3.
  pose proof (Hcat 4%nat _ _ eq_refl) as H4. pose proof (Hcat 5%nat _ _ eq_refl) as H5.
  pose proof (Hcat 6%nat _ _ eq_refl) as H6. pose proof (Hcat 7%nat _ _ eq_refl) as H7.
  pose proof (Hcat 8%nat _ _ eq_refl) as H8. pose proof (Hcat 9%nat _ _ eq_refl) as H9.
  pose proof (Hcat 10%nat _ _ eq_refl) as H10. clear Hcat.
  apply negb_false_iff, Z.eqb_eq in H0, H1, H5, H8, H10.
  rewrite Z.gtb_ltb in H2, H4, H6, H9. apply Z.ltb_ge in H2, H4, H6, H9.
  apply Z.eqb_neq in H3, H7.
  unfold nmissing, badintervals, badncpus, badavgs in *.
  assert (Hnil : forall l : list string, Z.of_nat (length l) = 0 -> l = [])
    by (intros [|x l] Hl; [done | simpl in Hl; lia]).
  destruct (output (c_options c)) as [path|] eqn:Eo; [|by destruct (H3 (proj2 Hout eq_refl))].
  exists c, path. repeat split; auto; try lia.
  unfold header_cond, nmissing, badintervals, badncpus.
  rewrite H0, H1, H5, H8.
  repeat match goal with
         | |- context [?a >? 1] => replace (a >? 1) with false by
               (symmetry; rewrite Z.gtb_ltb; apply Z.ltb_ge; lia)
         | |- context [?a =? 0] => replace (a =? 0) with false by
               (symmetry; apply Z.eqb_neq; lia)
         end.
  rewrite Hr. reflexivity.
Qed.

Lemma accepted_command_line_witness :
  exists c path,
    scan ["cpuwatch"; "-o"; "out"; "-c"; "4"] = Some (LoopDone c) /\
    given_o c = 1 /\ given_c c = 1 /\ output (c_options c) = Some path.
Proof.
  destruct (accepted_command_line ["cpuwatch"; "-o"; "out"; "-c"; "4"]
              (Parsed 0 (Options (Some "out") (d_of_int 1) 4 1 0) "")
              eq_refl eq_refl eq_refl)
    as (c & path & Hc & Ho & Hcc & _ & _ & _ & _ & _ & _ & _ & Hout & _).
  exists c, path. split; [exact Hc|]. split; [exact Ho|]. split; [exact Hcc|].
  assert (Hi : Some (LoopDone c) =
               Some (LoopDone (Collected (Options (Some "out") (d_of_int 1) 4 1 0)
                                 1 0 1 0 [] [] [] 0 (replicate 5 None) [])))
    by (rewrite <- Hc; reflexivity).
  injection Hi as ->. exact Hout.
Defined.

(** X4.  The option loop always ends: [parseCmdLine] returns, with 0 or
    -1, after fewer calls of [getopt_long] than the arguments have
    characters and words (more fuel does not change the result), and it
    never leaves through the [default] case. *)
Theorem parseCmdLine_returns (argv : list string) :
  exists p,
    parseCmdLine argv = Some p /\
    (p_ret p = 0 \/ p_ret p = -1) /\
    (forall o, scan argv <> Some (UnknownError o)) /\
    (forall n, (scan_fuel argv <= n)%nat ->
       scan_loop n (Getopt.init argv) (collected_init (length argv)) = scan argv).
Proof.
  destruct (scan_result argv) as [(c & Hc & Hh)|(o & Ho & Hh)].
  - exists (finish (fmt_s (argv !! 0%nat)) (LoopDone c)).
    split; [by apply parseCmdLine_scan|]. rewrite finish_LoopDone. cbn [p_ret].
    split; [destruct (decide _); auto|]. split; [congruence|].
    intros n Hn. rewrite Hc. eapply scan_loop_mono; eauto.
  - exists (finish (fmt_s (argv !! 0%nat)) (HelpGiven o)).
    split; [by apply parseCmdLine_scan|]. split; [by left|]. split; [congruence|].
    intros n Hn. rewrite Ho. eapply scan_loop_mono; eauto.
Qed.

(** ** How the program ends *)

Lemma iteration_exit_code (nan_text : string) (argv0 : option string) (path : string)
    (nc : Z) (new : nat) (ev : tick_events) (e : engine) (w w' : world) (code : Z) :
  iteration nan_text argv0 path nc new ev e w = Exited code w' -> code = -1.
Proof.
  unfold iteration.
  destruct (writeutil _ _ _ _ _ _) as [r w1]. destruct (r <? 0); [by intros [= <- _]|].
  destruct (sleep_ev ev); try (by intros [= <- _]);
    destruct (readuptime _ _ _) as [[r2 [reading|]] w2]; try (by intros [= <- _]);
    destruct (r2 <? 0); by intros [= <- _].
Qed.

Lemma iteration_defined (nan_text : string) (argv0 : option string) (path : string)
    (nc : Z) (new : nat) (ev : tick_events) (e : engine) (w : world) :
  iteration nan_text argv0 path nc new ev e w <> Undefined.
Proof.
  unfold iteration.
  destruct (writeutil _ _ _ _ _ _) as [r w1]. destruct (r <? 0); [done|].
  destruct (sleep_ev ev); try done;
    destruct (readuptime _ _ _) as [[r2 [reading|]] w2]; try done;
    destruct (r2 <? 0); done.
Qed.

Lemma loop_exit_code (nan_text : string) (argv0 : option string) (path : string)
    (nc : Z) (new : nat) (evs : list tick_events) (e : engine) (w w' : world) (code : Z) :
  loop nan_text argv0 path nc new evs e w = Exited code w' -> code = -1.
Proof.
  revert e w; induction evs as [|ev evs IH]; intros e w; [discriminate|].
  cbn [loop]. destruct (iteration _ _ _ _ _ ev e w) as [c1 w1|e1 w1|] eqn:Hit.
  - intros [= <- _]. eapply iteration_exit_code; eauto.
  - apply IH.
  - discriminate.
Qed.

(** X5.  Whenever [main] returns, it returns -1 (exit status 255):
    there is no run in which it returns 0. *)
Theorem main_returns_minus_one (nan_text : string) (argv : list string)
    (first : read_event) (evs : list tick_events) (w w' : world) (code : Z) :
  main nan_text argv first evs w = Exited code w' ->
  code = -1 /\ exit_status code = 255.
Proof.
  intros H. assert (Hc : code = -1); [|by rewrite Hc].
  revert H. unfold main.
  destruct (parseCmdLine argv) as [p|]; [|discriminate].
  destruct (_ || _); [by intros [= <- _]|].
  destruct (output (p_options p)) as [path|]; [|discriminate].
  destruct (wrap_int _ <=? 0); [discriminate|].
  destruct (readuptime _ _ _) as [[r [reading|]] w1]; [|by intros [= <- _]].
  destruct (r <? 0); [by intros [= <- _]|]. apply loop_exit_code.
Qed.

Lemma main_returns_minus_one_witness :
  exit_status (-1) = 255.
Proof.
  exact (proj2 (main_returns_minus_one "nan" ["cpuwatch"; "-o"; "out"; "-c"; "2"]
                  (ReadOk (d_of_int 10) (d_of_int 5))
                  [Tick WriteOk SleepOk (ReadScanFails "")]
                  (World ∅ "")
                  (World {["out" := "75.0%"]} "cpuwatch: Error scanning /proc/uptime")
                  (-1) eq_refl)).
Defined.

Lemma tick_ok_or_fails (ev : tick_events) :
  (exists r, tick_ok ev r) \/ tick_fails ev.
Proof.
  unfold tick_ok, tick_fails.
  destruct (write_ev ev) as [|s|] eqn:Ew; [|right; left; eauto|];
    (destruct (sleep_ev ev) as [| |s] eqn:Es; [| |right; right; left; eauto]);
    (destruct (read_ev ev) as [up idle|s|s] eqn:Er;
       [left; exists (up, idle); repeat split; intros; discriminate || done
       |right; right; right; left; eauto
       |right; right; right; right; eauto]).
Qed.

Lemma tick_fails_not_ok (ev : tick_events) (r : double * double) :
  tick_fails ev -> tick_ok ev r -> False.
Proof.
  intros [[s H]|[[s H]|[[s H]|[s H]]]] (Hw & Hs & Hr); congruence.
Qed.

(** X6.  An iteration of the loop ends the program, with -1, exactly
    when a call whose result is checked fails: [fopen] of the output
    file, [usleep] with an error other than EINTR, or [readuptime];
    otherwise the loop goes on.  When [fopen] fails only the message is
    printed; when /proc/uptime cannot be opened the output file has
    already been rewritten in that iteration. *)
Theorem iteration_stops_iff_checked_call_fails (nan_text : string)
    (argv0 : option string) (path : string) (nc : Z) (new : nat)
    (ev : tick_events) (e : engine) (w : world) :
  length (times e) = S new ->
  (tick_fails ev <->
   exists w', iteration nan_text argv0 path nc new ev e w = Exited (-1) w') /\
  (~ tick_fails ev <->
   exists e' w', iteration nan_text argv0 path nc new ev e w = Looping e' w') /\
  (forall s, write_ev ev = WriteOpenFails s ->
     iteration nan_text argv0 path nc new ev e w =
     Exited (-1) (eprint w (fmt_s argv0 +:+ ": Could not open '" +:+ path
                              +:+ "' (" +:+ s +:+ ")"))) /\
  (forall s', write_ev ev = WriteOk -> (forall s, sleep_ev ev <> SleepFails s) ->
     read_ev ev = ReadOpenFails s' ->
     iteration nan_text argv0 path nc new ev e w =
     Exited (-1)
       (World (<[path := fmt_1f nan_text (u e) +:+ "%"]> (files w))
              (stderr w +:+ (fmt_s argv0 +:+ ": Could not open /proc/uptime ("
                             +:+ s' +:+ ")")))).
Proof.
  intros Hl.
  assert (Hfail : tick_fails ev ->
            exists w', iteration nan_text argv0 path nc new ev e w = Exited (-1) w').
  { intros Hf.
    destruct (iteration nan_text argv0 path nc new ev e w) as [c w1|e1 w1|] eqn:Hit.
    - rewrite (iteration_exit_code _ _ _ _ _ _ _ _ _ _ Hit). eauto.
    - apply iteration_Looping_inv in Hit as (r & Hr & _).
      destruct (tick_fails_not_ok ev r Hf Hr).
    - by apply iteration_defined in Hit. }
  assert (Hok : ~ tick_fails ev ->
            exists e' w', iteration nan_text argv0 path nc new ev e w = Looping e' w').
  { intros Hn. destruct (tick_ok_or_fails ev) as [[r Hr]|Hf]; [|done].
    destruct (iteration_ok nan_text argv0 path nc new ev r e w Hr Hl) as (w' & Hit & _).
    eauto. }
  split; [|split; [|split]].
  - split; [exact Hfail|]. intros [w' Hit].
    destruct (tick_ok_or_fails ev) as [[r Hr]|Hf]; [|done].
    destruct (iteration_ok nan_text argv0 path nc new ev r e w Hr Hl) as (w2 & Hit2 & _).
    congruence.
  - split; [exact Hok|]. intros (e' & w' & Hit) Hf.
    destruct (Hfail Hf) as [w2 Hit2]. congruence.
  - intros s Hw. unfold iteration. rewrite Hw. reflexivity.
  - intros s' Hw Hs Hr. unfold iteration. rewrite Hw, Hr. cbn [writeutil].
    change (0 <? 0) with false. cbv iota.
    destruct (sleep_ev ev) as [| |s2] eqn:Es; try reflexivity.
    by destruct (Hs s2).
Qed.

Lemma iteration_stops_iff_checked_call_fails_witness :
  exists w',
    iteration "nan" (Some "cpuwatch") "out" 1 1
      (Tick WriteOk SleepOk (ReadScanFails ""))
      (start 1 1 (d_of_int 100, d_of_int 80)) (World ∅ "") = Exited (-1) w'.
Proof.
  apply (iteration_stops_iff_checked_call_fails "nan" (Some "cpuwatch") "out" 1 1
           (Tick WriteOk SleepOk (ReadScanFails ""))
           (start 1 1 (d_of_int 100, d_of_int 80)) (World ∅ "") eq_refl).
  right. right. right. exists "". reflexivity.
Defined.

Lemma usage_path_world (w : world) (a b : string) :
  eprint (eprint w a) b = World (files w) ((stderr w +:+ a) +:+ b).
Proof. reflexivity. Qed.

(** X7.  On an invalid command line, or when help is asked for, [main]
    prints the diagnostics and the usage text and returns -1; it writes
    no file, and the result does not depend on what /proc/uptime or
    the later calls would have done. *)
Theorem invalid_command_line_touches_nothing (nan_text : string) (argv : list string)
    (p : parsed) (first first' : read_event) (evs evs' : list tick_events) (w : world) :
  parseCmdLine argv = Some p ->
  p_ret p = -1 \/ given_h (p_options p) <> 0 ->
  main nan_text argv first evs w =
    Exited (-1) (World (files w) ((stderr w +:+ p_stderr p) +:+ usage)) /\
  main nan_text argv first' evs' w = main nan_text argv first evs w.
Proof.
  intros Hp H.
  assert (H' : p_ret p < 0 \/ given_h (p_options p) <> 0) by (destruct H; [left; lia | by right]).
  rewrite !(main_usage nan_text argv p _ _ w Hp H'). split; reflexivity.
Qed.

Lemma invalid_command_line_touches_nothing_witness :
  main "nan" ["cpuwatch"; "--help"] (ReadOk (d_of_int 1) (d_of_int 1)) [] (World ∅ "") =
  Exited (-1) (World ∅ (("" +:+ "") +:+ usage)).
Proof.
  apply (invalid_command_line_touches_nothing "nan" ["cpuwatch"; "--help"]
           (Parsed 0 (Options None (d_of_int 1) 0 1 (-1)) "")
           (ReadOk (d_of_int 1) (d_of_int 1)) (ReadOpenFails "") [] []
           (World ∅ "") eq_refl).
  right. discriminate.
Defined.

(** X8.  The first value written is 100 - 100 * (idle / ncpu / uptime)
    of the first reading alone, and nothing is printed on [stderr]. *)
Theorem first_value_is_average_since_boot (nan_text : string) (argv : list string)
    (o : options) (path : string) (up idle : double) (ev : tick_events)
    (r : double * double) (w : world) :
  accepts argv o -> given_h o = 0 -> output o = Some path ->
  0 <= avg o < 2147483647 ->
  tick_ok ev r -> write_ev ev = WriteOk ->
  u (start (ncpu o) (Z.to_nat (avg o)) (up, idle)) =
    dsub (d_of_int 100)
      (dmul (d_of_int 100) (ddiv (ddiv idle (d_of_int (ncpu o))) up)) /\
  exists e w',
    main nan_text argv (ReadOk up idle) [ev] w = Looping e w' /\
    files w' !! path =
      Some (fmt_1f nan_text
              (dsub (d_of_int 100)
                 (dmul (d_of_int 100) (ddiv (ddiv idle (d_of_int (ncpu o))) up)))
            +:+ "%") /\
    stderr w' = stderr w.
Proof.
  intros Ha Hh Ho Hn Hev Hw. split; [reflexivity|].
  rewrite (main_accepted nan_text argv o path up idle [ev] w Ha Hh Ho Hn).
  cbn [loop].
  assert (Hl : length (times (start (ncpu o) (Z.to_nat (avg o)) (up, idle)))
               = S (Z.to_nat (avg o))).
  { by rewrite start_times, length_replicate. }
  destruct (iteration_ok nan_text (argv !! 0%nat) path (ncpu o) (Z.to_nat (avg o)) ev r
              _ w Hev Hl) as (w' & Hit & Hst).
  rewrite Hit. eexists _, w'. split; [reflexivity|]. split; [|exact Hst].
  apply iteration_Looping_inv in Hit as (_ & _ & ->).
  rewrite Hw. cbn [writeutil snd files]. apply lookup_insert_eq.
Qed.

Lemma first_value_is_average_since_boot_witness :
  exists e w',
    main "nan" ["cpuwatch"; "-o"; "out"; "-c"; "4"]
      (ReadOk (d_of_int 100) (d_of_int 300))
      [Tick WriteOk SleepOk (ReadOk (d_of_int 101) (d_of_int 302))] (World ∅ "")
    = Looping e w' /\
    files w' !! "out" = Some "25.0%".
Proof.
  destruct (first_value_is_average_since_boot "nan" ["cpuwatch"; "-o"; "out"; "-c"; "4"]
              (Options (Some "out") (d_of_int 1) 4 1 0) "out"
              (d_of_int 100) (d_of_int 300)
              (Tick WriteOk SleepOk (ReadOk (d_of_int 101) (d_of_int 302)))
              (d_of_int 101, d_of_int 302) (World ∅ ""))
    as (_ & e & w' & Hm & Hf & _);
    try reflexivity; try (cbn; lia); try (repeat split; discriminate || reflexivity).
  exists e, w'. split; [exact Hm | exact Hf].
Defined.



(** ** More on the command line *)

(** X10.  A malformed [-n] value, when it is the only error, is
    reported without the heading line "Error(s) processing command line
    arguments" (the test for the heading leaves [badavgs] out), whereas
    a malformed [-c] value is reported under the heading; both return
    -1 and keep the digits read before the bad character. *)
Theorem malformed_samples_reported_without_heading (prog path vc v : string) :
  digits_only vc = true -> digits_only v = false ->
  parseCmdLine [prog; "-o"; path; "-c"; vc; "-n"; v] =
    Some (Parsed (-1)
            (Options (Some path) (d_of_int 1) (fst (parse_int vc 0)) (fst (parse_int v 0)) 0)
            ("--samples/-n was given improperly 1 time: '" +:+ v +:+ "'
")) /\
  parseCmdLine [prog; "-o"; path; "-c"; v] =
    Some (Parsed (-1)
            (Options (Some path) (d_of_int 1) (fst (parse_int v 0)) 1 0)
            (prog +:+ ": Error(s) processing command line arguments.

--cpus/-c was given improperly 1 time: '" +:+ v +:+ "'
")).
Proof.
  intros Hc Hv.
  pose proof (parse_int_pair vc 0) as Ec. rewrite Hc in Ec.
  pose proof (parse_int_pair v 0) as Ev. rewrite Hv in Ev. cbn [negb] in Ec, Ev.
  split.
  - erewrite parseCmdLine_scan.
    2:{ apply (scan_by_fuel 4). scan_o. scan_c Ec. scan_n Ev. scan_done. }
    generalize (fst (parse_int vc 0)) (fst (parse_int v 0)). intros. text_eq.
  - erewrite parseCmdLine_scan.
    2:{ apply (scan_by_fuel 3). scan_o. scan_c Ev. scan_done. }
    generalize (fst (parse_int v 0)). intros. text_eq.
Qed.

Lemma malformed_samples_reported_without_heading_witness :
  parseCmdLine ["cpuwatch"; "-o"; "out"; "-c"; "4"; "-n"; "5x"] =
    Some (Parsed (-1) (Options (Some "out") (d_of_int 1) 4 5 0)
            "--samples/-n was given improperly 1 time: '5x'
").
Proof.
  exact (proj1 (malformed_samples_reported_without_heading
                  "cpuwatch" "out" "4" "5x" eq_refl eq_refl)).
Defined.





(** X12.  Nothing after the word [--] is read as an option: after
    [-o PATH -c NUM --] the command line is accepted whatever follows,
    and a [-h] there does not ask for help. *)
Theorem nothing_after_terminator_is_an_option (prog path vc : string) (rest : list string) :
  digits_only vc = true ->
  accepts (prog :: "-o" :: path :: "-c" :: vc :: "--" :: rest)
    (Options (Some path) (d_of_int 1) (fst (parse_int vc 0)) 1 0) /\
  ~ signals_help (prog :: "-o" :: path :: "-c" :: vc :: "--" :: rest).
Proof.
  intros Hc.
  pose proof (parse_int_pair vc 0) as Ec. rewrite Hc in Ec. cbn [negb] in Ec.
  assert (Ha : accepts (prog :: "-o" :: path :: "-c" :: vc :: "--" :: rest)
                 (Options (Some path) (d_of_int 1) (fst (parse_int vc 0)) 1 0)).
  { unfold accepts. erewrite parseCmdLine_scan.
    2:{ apply (scan_by_fuel 3). scan_o. scan_c Ec. scan_done. }
    generalize (fst (parse_int vc 0)). intros. vm_compute. reflexivity. }
  split; [exact Ha|]. intros (o & Ho & Hh). unfold accepts in Ha.
  rewrite Ha in Ho. injection Ho as <-. by apply Hh.
Qed.

Lemma nothing_after_terminator_is_an_option_witness :
  accepts ["cpuwatch"; "-o"; "out"; "-c"; "4"; "--"; "-h"; "--bogus"; "-o"]
    (Options (Some "out") (d_of_int 1) 4 1 0).
Proof.
  exact (proj1 (nothing_after_terminator_is_an_option "cpuwatch" "out" "4"
                  ["-h"; "--bogus"; "-o"] eq_refl)).
Defined.

(** X13.  The long option that sets the number of CPUs is [--ncpu]:
    [--ncpu=NUM], [--ncpu NUM] and the abbreviation [--n=NUM] are
    accepted and set [ncpu]. *)
Theorem ncpu_is_the_long_name (prog path vc : string) :
  digits_only vc = true ->
  accepts [prog; "-o"; path; "--ncpu=" +:+ vc]
    (Options (Some path) (d_of_int 1) (fst (parse_int vc 0)) 1 0) /\
  accepts [prog; "-o"; path; "--ncpu"; vc]
    (Options (Some path) (d_of_int 1) (fst (parse_int vc 0)) 1 0) /\
  accepts [prog; "-o"; path; "--n=" +:+ vc]
    (Options (Some path) (d_of_int 1) (fst (parse_int vc 0)) 1 0).
Proof.
  intros Hc.
  pose proof (parse_int_pair vc 0) as Ec. rewrite Hc in Ec. cbn [negb] in Ec.
  repeat split; unfold accepts; erewrite parseCmdLine_scan;
    try (apply (scan_by_fuel 3); scan_o; scan_c Ec; scan_done);
    generalize (fst (parse_int vc 0)); intros; vm_compute; reflexivity.
Qed.

Lemma ncpu_is_the_long_name_witness :
  accepts ["cpuwatch"; "-o"; "out"; "--ncpu=12"]
    (Options (Some "out") (d_of_int 1) 12 1 0).
Proof.
  exact (proj1 (ncpu_is_the_long_name "cpuwatch" "out" "12" eq_refl)).
Defined.

(** X14.  The value of an option can be given in the next word or in
    the same word, for the short and the long form, and a long name can
    be abbreviated: [-o PATH], [-oPATH], [--output=PATH],
    [--output PATH] and [--out PATH] give the same options. *)
Theorem option_value_spellings (prog vc : string) (c : ascii) (p : string) :
  digits_only vc = true ->
  let path := String c p in
  let o := Options (Some path) (d_of_int 1) (fst (parse_int vc 0)) 1 0 in
  accepts [prog; "-o"; path; "-c"; vc] o /\
  accepts [prog; "-o" +:+ path; "-c"; vc] o /\
  accepts [prog; "--output=" +:+ path; "-c"; vc] o /\
  accepts [prog; "--output"; path; "-c"; vc] o /\
  accepts [prog; "--out"; path; "-c"; vc] o.
Proof.
  intros Hc path o.
  pose proof (parse_int_pair vc 0) as Ec. rewrite Hc in Ec. cbn [negb] in Ec.
  subst path o.
  repeat split; unfold accepts; erewrite parseCmdLine_scan;
    try (apply (scan_by_fuel 3); scan_o; scan_c Ec; scan_done);
    generalize (fst (parse_int vc 0)); intros; vm_compute; reflexivity.
Qed.

Lemma option_value_spellings_witness :
  accepts ["cpuwatch"; "-oout"; "-c"; "4"] (Options (Some "out") (d_of_int 1) 4 1 0).
Proof.
  exact (proj1 (proj2 (option_value_spellings "cpuwatch" "4" "o" "ut" eq_refl))).
Defined.

(** ** The list of options that are not recognised *)

Lemma short_option_unknown (av : list string) (oi fst lst : nat) (c : ascii) (rest : string) :
  Getopt.strchr optstring c = None ->
  Getopt.short_option optstring av oi fst lst c rest =
  (char_code "?",
   Getopt.State av (match rest with EmptyString => S oi | _ => oi end) None rest fst lst).
Proof. intros H. unfold Getopt.short_option. by rewrite H. Qed.

(** X15.  For a group of two unknown option letters in one word, the
    first letter is recorded at the index before the word: the list of
    options not recognised names the program itself and then the word
    of the group. *)
Theorem unknown_letter_in_group_reports_word_before (prog : string) (a b : ascii) :
  Getopt.strchr optstring a = None -> Getopt.strchr optstring b = None ->
  a <> "-"%char ->
  let word := String "-" (String a (String b "")) in
  exists c,
    scan [prog; word] = Some (LoopDone c) /\
    nunrecognized c = 2 /\
    unrecognized c = [Some prog; Some word] /\
    parseCmdLine [prog; word] =
      Some (Parsed (-1) (Options None (d_of_int 1) 0 1 0)
              (prog +:+ ": Error(s) processing command line arguments.

2 options were not recognised: '" +:+ prog +:+ "', '" +:+ word +:+ "'
--output/-o was not given.
--cpus/-c was not given.
")).
Proof.
  intros Ha Hb Hne word.
  assert (Hdash : Ascii.eqb a "-" = false) by (by apply Ascii.eqb_neq).
  assert (Hcl : Getopt.classify word = Getopt.ShortOptions a (String b "")).
  { unfold word, Getopt.classify. rewrite Ascii.eqb_refl, Hdash. reflexivity. }
  assert (H1 : Getopt.getopt_long optstring getopts (Getopt.init [prog; word]) =
               (char_code "?", Getopt.State [prog; word] 1 None (String b "") 1 1)).
  { unfold Getopt.getopt_long, Getopt.init.
    cbn [Getopt.argv Getopt.optind Getopt.nextchar Getopt.first_nonopt Getopt.last_nonopt
         length Nat.ltb Nat.leb Nat.min].
    unfold Getopt.permute. cbn [Nat.eqb negb andb drop Getopt.skip_nonoptions].
    unfold Getopt.NONOPTION_P. rewrite Hcl. cbn [Nat.add lookup list_lookup].
    rewrite Hcl. by rewrite short_option_unknown. }
  assert (H2 : Getopt.getopt_long optstring getopts
                 (Getopt.State [prog; word] 1 None (String b "") 1 1) =
               (char_code "?", Getopt.State [prog; word] 2 None "" 1 1)).
  { unfold Getopt.getopt_long.
    cbn [Getopt.argv Getopt.optind Getopt.nextchar Getopt.first_nonopt Getopt.last_nonopt
         length Nat.ltb Nat.leb].
    by rewrite short_option_unknown. }
  assert (Hs : scan [prog; word] =
    Some (LoopDone (Collected (Options None (d_of_int 1) 0 1 0) 0 0 0 0 [] [] []
                      (0 + 1 + 1) [Some prog; Some word] []))).
  { apply (scan_by_fuel 3).
    erewrite scan_loop_next; [|exact H1|discriminate|apply option_case_unrecognized].
    scan_fields.
    erewrite scan_loop_next; [|exact H2|discriminate|apply option_case_unrecognized].
    scan_fields. scan_done. }
  eexists. split; [exact Hs|]. split; [reflexivity|]. split; [reflexivity|].
  rewrite (parseCmdLine_scan _ _ Hs). unfold word. text_eq.
Qed.

Lemma unknown_letter_in_group_reports_word_before_witness :
  exists c, scan ["cpuwatch"; "-xy"] = Some (LoopDone c) /\
            unrecognized c = [Some "cpuwatch"; Some "-xy"].
Proof.
  destruct (unknown_letter_in_group_reports_word_before "cpuwatch" "x" "y"
              eq_refl eq_refl ltac:(discriminate)) as (c & Hc & _ & Hu & _).
  exists c. split; [exact Hc | exact Hu].
Defined.

Lemma unrecognized_first_skips (n : nat) (l : list (option string)) :
  unrecognized_first (replicate n None ++ l) = unrecognized_first l.
Proof. induction n as [|n IH]; [done | exact IH]. Qed.

Lemma unrecognized_rest_alternate (ys : list string) :
  unrecognized_rest (map Some ys) =
  String.concat "" (map (fun y => ", " +:+ quoted y) (alternate ys)).
Proof.
  enough (H : forall ys,
             unrecognized_rest (map Some ys) =
               String.concat "" (map (fun y => ", " +:+ quoted y) (alternate ys)) /\
             forall y, unrecognized_rest (map Some (y :: ys)) =
               String.concat "" (map (fun y => ", " +:+ quoted y) (alternate (y :: ys))))
    by apply H.
  clear ys. induction ys as [|y1 ys [IH1 IH2]].
  - split; [done|]. intros y. cbn. by rewrite append_nil_r.
  - split; [apply IH2|]. intros y.
    cbn [map unrecognized_rest alternate]. rewrite IH1.
    rewrite concat_cons_empty. by rewrite append_assoc.
Qed.

(** X16.  The line listing the options that were not recognised names
    the first recorded entry and then every second of the entries that
    follow it: after each entry the second loop prints, the next slot
    is passed over, so the count can exceed the names listed. *)
Theorem unrecognised_list_omits_entries (c : collected) (n : nat) (x : string)
    (ys : list string) :
  unrecognized c = replicate n None ++ map Some (x :: ys) ->
  msg_unrecognized c =
    fmt_d (nunrecognized c) +:+ " option" +:+
    (if nunrecognized c >? 1 then "s were" else " was") +:+ " not recognised: " +:+
    quoted x +:+ String.concat "" (map (fun y => ", " +:+ quoted y) (alternate ys)) +:+ "
".
Proof.
  intros H. unfold msg_unrecognized. rewrite H, unrecognized_first_skips.
  cbn [map unrecognized_first]. by rewrite unrecognized_rest_alternate.
Qed.

Lemma unrecognised_list_omits_entries_witness :
  msg_unrecognized
    (Collected (Options (Some "out") (d_of_int 1) 1 1 0) 1 0 1 0 [] [] [] 4
       [None; None; None; None; None; Some "--a"; Some "--b"; Some "--d"; Some "--e"] []) =
  "4 options were not recognised: '--a', '--b', '--e'
".
Proof.
  exact (unrecognised_list_omits_entries
           (Collected (Options (Some "out") (d_of_int 1) 1 1 0) 1 0 1 0 [] [] [] 4
              [None; None; None; None; None; Some "--a"; Some "--b"; Some "--d"; Some "--e"] [])
           5 "--a" ["--b"; "--d"; "--e"] eq_refl).
Defined.

(** ** The value [case 'i'] stores *)

Lemma interval_whole_value (a c : string) (d : double) :
  digits_only a = true ->
  match c with EmptyString => True | String ch _ => not_digit ch = true end ->
  fst (fst (interval_whole (a +:+ c) d)) = digits_value a d.
Proof.
  revert d; induction a as [|ch a IH]; intros d Ha Hc.
  - rewrite append_nil_l. destruct c as [|ch c]; [done|].
    cbn [interval_whole]. by rewrite Hc.
  - cbn [digits_only] in Ha. apply andb_true_iff in Ha as [H1 H2].
    rewrite append_cons. cbn [interval_whole digits_value].
    apply negb_true_iff in H1. rewrite H1. by apply IH.
Qed.

Lemma interval_fraction_value (b : string) (d : double) (v : nat) :
  digits_only b = true ->
  interval_fraction b d v = (digits_value b d, (v + String.length b)%nat, false).
Proof.
  revert d v; induction b as [|ch b IH]; intros d v Hb.
  - cbn. by rewrite Nat.add_0_r.
  - cbn [digits_only] in Hb. apply andb_true_iff in Hb as [H1 H2].
    apply negb_true_iff in H1. cbn [interval_fraction digits_value String.length].
    rewrite H1, IH by done. do 2 f_equal. lia.
Qed.

Lemma digits_value_app (a b : string) (d : double) :
  digits_value (a +:+ b) d = digits_value b (digits_value a d).
Proof.
  revert d; induction a as [|ch a IH]; intros d; [done|].
  rewrite append_cons. cbn [digits_value]. apply IH.
Qed.

(** X17.  The value [case 'i'] stores for digits is the digits pushed
    one by one onto 0.0; for digits '.' digits it is all the digits
    pushed onto 0.0 and then divided by 10 once for each digit after
    the dot. *)
Theorem interval_is_digits_scaled_down (a b : string) :
  digits_only a = true -> digits_only b = true ->
  parse_interval a = (digits_value a (d_of_int 0), false) /\
  parse_interval (a +:+ "." +:+ b) =
    (interval_scale (String.length b) (digits_value (a +:+ b) (d_of_int 0)), false).
Proof.
  intros Ha Hb. split.
  - unfold parse_interval.
    destruct (interval_whole_digits a "" (d_of_int 0) Ha I) as [d' H].
    pose proof (interval_whole_value a "" (d_of_int 0) Ha I) as Hv.
    rewrite append_nil_r in H, Hv. rewrite H in Hv |- *. cbn in Hv. by subst d'.
  - unfold parse_interval.
    destruct (interval_whole_digits a ("." +:+ b) (d_of_int 0) Ha not_digit_dot) as [d' H].
    pose proof (interval_whole_value a ("." +:+ b) (d_of_int 0) Ha not_digit_dot) as Hv.
    rewrite H in Hv |- *. cbn [fst] in Hv. subst d'.
    rewrite append_cons, append_nil_l, Ascii.eqb_refl.
    rewrite interval_fraction_value by done. cbn [Nat.add].
    by rewrite digits_value_app.
Qed.

Lemma interval_is_digits_scaled_down_witness :
  parse_interval "0.25" = (d_of_bin 1 (-2), false) /\
  parse_interval "60" = (d_of_int 60, false).
Proof.
  split.
  - exact (proj2 (interval_is_digits_scaled_down "0" "25" eq_refl eq_refl)).
  - exact (proj1 (interval_is_digits_scaled_down "60" "" eq_refl eq_refl)).
Defined.

(** The four unknown long options of which three are listed. *)
Example unrecognised_list_example :
  p_stderr <$> parseCmdLine ["cpuwatch"; "-o"; "out"; "-c"; "1"; "--a"; "--b"; "--d"; "--e"] =
  Some "cpuwatch: Error(s) processing command line arguments.

4 options were not recognised: '--a', '--b', '--e'
".
Proof. vm_compute. reflexivity. Qed.

(** X18.  An option that requires a value and is the last word is
    recorded as given without an argument, under its own spelling, and
    is not counted as given: the command line is rejected with that
    line and the two "was not given" lines. *)
Theorem option_without_value_is_missing (prog opt : string) :
  opt ∈ ["-o"; "-i"; "-c"; "-n"; "--output"; "--interval"; "--ncpu"; "--samples"] ->
  exists c,
    scan [prog; opt] = Some (LoopDone c) /\
    missing c = [opt] /\
    given_o c = 0 /\ given_i c = 0 /\ given_c c = 0 /\ given_n c = 0 /\
    nunrecognized c = 0 /\
    parseCmdLine [prog; opt] =
      Some (Parsed (-1) (Options None (d_of_int 1) 0 1 0)
              (prog +:+ ": Error(s) processing command line arguments.

1 option was given without an argument: '" +:+ opt +:+ "'
--output/-o was not given.
--cpus/-c was not given.
")).
Proof.
  rewrite !elem_of_cons, elem_of_nil.
  intros [->|[->|[->|[->|[->|[->|[->|[->|[]]]]]]]]];
    (eexists; split;
     [apply (scan_by_fuel 2); scan_missing; scan_done|];
     repeat (split; [reflexivity|]);
     erewrite parseCmdLine_scan;
     [|apply (scan_by_fuel 2); scan_missing; scan_done]; text_eq).
Qed.

Lemma option_without_value_is_missing_witness :
  exists c, scan ["cpuwatch"; "--output"] = Some (LoopDone c) /\ missing c = ["--output"].
Proof.
  destruct (option_without_value_is_missing "cpuwatch" "--output") as (c & Hc & Hm & _).
  { do 4 apply list_elem_of_further. apply list_elem_of_here. }
  exists c. split; [exact Hc | exact Hm].
Defined.
